(** * 2D particle simulation: a shallow embedding of 2DParticleSimulation.cpp

    The program works on C [float]s.  Every definition below is written
    once, over an abstract scalar type [F] carrying the operations the
    source uses, and is then read in two ways:

    - at [R], the real numbers, for statements about ideal arithmetic;
    - at [binary32], IEEE-754 single precision built from the standard
      library's [spec_float] operations, to run the code on concrete
      inputs.

    The update loop of the frame runs under [#pragma omp parallel for]
    with two threads and no synchronisation: an iteration may read the
    other balls before or after their own iterations have written them.
    [updateBall] is the body of that loop for one index, applied to
    whatever vector the iteration reads; [updateBalls] runs the bodies in
    index order, which is one of the schedules.  Statements that speak of
    what an iteration reads are made of [updateBall] and [integrate], for
    every vector; [updateBalls] is used where the order does not bear on
    the result. *)

From Stdlib Require Import ZArith Reals Lra Lia List.
From Stdlib Require Import Floats.SpecFloat.
From stdpp Require Import base list sorting.

(** ** Scalars *)

Class Scalar (F : Type) := {
  of_int : Z -> F;            (* int -> float conversion, and literals *)
  add : F -> F -> F;
  sub : F -> F -> F;
  mul : F -> F -> F;
  div : F -> F -> F;
  neg : F -> F;
  sqrtf : F -> F;
  ltb : F -> F -> bool        (* the C comparison a < b *)
}.

Declare Scope scalar_scope.
Delimit Scope scalar_scope with S.
Infix "+" := add : scalar_scope.
Infix "-" := sub : scalar_scope.
Infix "*" := mul : scalar_scope.
Infix "/" := div : scalar_scope.
Notation "- a" := (neg a) : scalar_scope.
Infix "<?" := ltb : scalar_scope.
Notation "a >? b" := (ltb b a) : scalar_scope.

(** Ideal arithmetic. *)
#[export] Instance R_Scalar : Scalar R := {
  of_int := IZR;
  add := Rplus;
  sub := Rminus;
  mul := Rmult;
  div := Rdiv;
  neg := Ropp;
  sqrtf := sqrt;
  ltb := fun a b => if Rlt_dec a b then true else false
}.

(** IEEE-754 single precision: 24 bits of precision, maximal exponent 128,
    round to nearest even. *)
Definition binary32 : Type := spec_float.

Definition b32_of_int (z : Z) : binary32 := binary_normalize 24 128 z 0 false.

#[export] Instance binary32_Scalar : Scalar binary32 := {
  of_int := b32_of_int;
  add := SFadd 24 128;
  sub := SFsub 24 128;
  mul := SFmul 24 128;
  div := SFdiv 24 128;
  neg := SFopp;
  sqrtf := SFsqrt 24 128;
  ltb := SFltb
}.

(** ** Vectors and the raymath functions the program calls

    [Vector2] and the [Vector2...] functions come from raylib's
    raymath.h; they are transcribed from that header. *)

Record Vector2 (F : Type) : Type := mkVector2 { x : F; y : F }.
Arguments mkVector2 {F} _ _.
Arguments x {F} _.
Arguments y {F} _.

(* raylib's Color: four unsigned chars. *)
Module Color.
Record t : Type := mk { r : Z; g : Z; b : Z; a : Z }.
End Color.

Section Raymath.
Context {F : Type} `{Scalar F}.
Local Open Scope scalar_scope.

Definition Vector2Zero : Vector2 F := mkVector2 (of_int 0) (of_int 0).

Definition Vector2Add (v1 v2 : Vector2 F) : Vector2 F :=
  mkVector2 (x v1 + x v2) (y v1 + y v2).

Definition Vector2Subtract (v1 v2 : Vector2 F) : Vector2 F :=
  mkVector2 (x v1 - x v2) (y v1 - y v2).

Definition Vector2Scale (v : Vector2 F) (scale : F) : Vector2 F :=
  mkVector2 (x v * scale) (y v * scale).

Definition Vector2Length (v : Vector2 F) : F :=
  sqrtf ((x v * x v) + (y v * y v)).

Definition Vector2DotProduct (v1 v2 : Vector2 F) : F :=
  (x v1 * x v2) + (y v1 * y v2).

Definition Vector2Distance (v1 v2 : Vector2 F) : F :=
  sqrtf ((x v1 - x v2) * (x v1 - x v2) + (y v1 - y v2) * (y v1 - y v2)).

(* As in raymath.h of raylib 4: a vector of length zero is returned as the
   zero vector. *)
Definition Vector2Normalize (v : Vector2 F) : Vector2 F :=
  let length := sqrtf ((x v * x v) + (y v * y v)) in
  if length >? of_int 0 then
    let ilength := of_int 1 / length in
    mkVector2 (x v * ilength) (y v * ilength)
  else Vector2Zero.
End Raymath.

(** ** KahanVector2Sum *)

Record KahanVector2Sum (F : Type) : Type :=
  mkKahan { sum : Vector2 F; c : Vector2 F }.
Arguments mkKahan {F} _ _.
Arguments sum {F} _.
Arguments c {F} _.

Section Kahan.
Context {F : Type} `{Scalar F}.

(* The constructor: sum{0,0}, c{0,0}. *)
Definition KahanVector2Sum_new : KahanVector2Sum F :=
  mkKahan Vector2Zero Vector2Zero.

Definition Add (k : KahanVector2Sum F) (value : Vector2 F) : KahanVector2Sum F :=
  let y := Vector2Subtract value (c k) in
  let t := Vector2Add (sum k) y in
  mkKahan t (Vector2Subtract (Vector2Subtract t (sum k)) y).

Definition GetSum (k : KahanVector2Sum F) : Vector2 F := sum k.
End Kahan.

(** ** Balls, gravity, collisions *)

Record Ball (F : Type) : Type := mkBall {
  position : Vector2 F;
  velocity : Vector2 F;
  acceleration : Vector2 F;
  radius : F;
  mass : F;
  color : Color.t
}.
Arguments mkBall {F} _ _ _ _ _ _.
Arguments position {F} _.
Arguments velocity {F} _.
Arguments acceleration {F} _.
Arguments radius {F} _.
Arguments mass {F} _.
Arguments color {F} _.

Definition set_position {F} (ball : Ball F) (p : Vector2 F) : Ball F :=
  mkBall p (velocity ball) (acceleration ball) (radius ball) (mass ball) (color ball).
Definition set_velocity {F} (ball : Ball F) (v : Vector2 F) : Ball F :=
  mkBall (position ball) v (acceleration ball) (radius ball) (mass ball) (color ball).
Definition set_acceleration {F} (ball : Ball F) (acc : Vector2 F) : Ball F :=
  mkBall (position ball) (velocity ball) acc (radius ball) (mass ball) (color ball).
Definition set_x {F} (v : Vector2 F) (e : F) : Vector2 F := mkVector2 e (y v).
Definition set_y {F} (v : Vector2 F) (e : F) : Vector2 F := mkVector2 (x v) e.

Section Physics.
Context {F : Type} `{Scalar F}.
Local Open Scope scalar_scope.

Definition minDistanceThreshold : F := of_int 10.
Definition G : F := of_int 1000.

(* The two intermediate values of calculateGravitationalForce that the
   division uses. *)
Definition gravityDistance (source target : Ball F) : F :=
  Vector2Length (Vector2Subtract (position target) (position source))
  + minDistanceThreshold.

Definition gravityDivisor (source target : Ball F) : F :=
  gravityDistance source target * gravityDistance source target.

Definition calculateGravitationalForce (source target : Ball F) : Vector2 F :=
  let direction := Vector2Subtract (position target) (position source) in
  let distance := Vector2Length direction + minDistanceThreshold in
  let direction := Vector2Normalize direction in
  let forceMagnitude := (G * mass source * mass target) / (distance * distance) in
  Vector2Scale direction forceMagnitude.

Definition checkBallCollision (ball1 ball2 : Ball F) : bool :=
  let distance := Vector2Distance (position ball1) (position ball2) in
  distance <? radius ball1 + radius ball2.

(* The first [if] of resolveBallCollision: positional correction. *)
Definition correctPositions (ball1 ball2 : Ball F) : Ball F * Ball F :=
  if Vector2Distance (position ball1) (position ball2) <? radius ball1 + radius ball2
  then
    let direction := Vector2Subtract (position ball2) (position ball1) in
    let distance := Vector2Length direction in
    let overlap := (radius ball1 + radius ball2) - distance in
    let direction := Vector2Normalize direction in
    let totalMass := mass ball1 + mass ball2 in
    let ratio1 := mass ball2 / totalMass in
    let ratio2 := mass ball1 / totalMass in
    let ball1' :=
      set_position ball1
        (Vector2Subtract (position ball1) (Vector2Scale direction (overlap * ratio1))) in
    let ball2' :=
      set_position ball2
        (Vector2Add (position ball2) (Vector2Scale direction (overlap * ratio2))) in
    (ball1', ball2')
  else (ball1, ball2).

(* The second [if]: impulse response.  [normal] and [relativeSpeed] are
   the values computed at the top of resolveBallCollision, before the
   positions move. *)
Definition applyImpulse (normal : Vector2 F) (relativeSpeed : F)
    (ball1 ball2 : Ball F) : Ball F * Ball F :=
  if relativeSpeed <? of_int 0 then
    let impulse := (of_int 2 * relativeSpeed) / (mass ball1 + mass ball2) in
    let ball1' :=
      set_velocity ball1
        (Vector2Add (velocity ball1) (Vector2Scale normal (impulse * mass ball2))) in
    let ball2' :=
      set_velocity ball2
        (Vector2Subtract (velocity ball2) (Vector2Scale normal (impulse * mass ball1))) in
    (ball1', ball2')
  else (ball1, ball2).

Definition collisionNormal (ball1 ball2 : Ball F) : Vector2 F :=
  Vector2Normalize (Vector2Subtract (position ball2) (position ball1)).

Definition collisionRelativeSpeed (ball1 ball2 : Ball F) : F :=
  Vector2DotProduct (Vector2Subtract (velocity ball2) (velocity ball1))
                    (collisionNormal ball1 ball2).

Definition resolveBallCollision (ball1 ball2 : Ball F) : Ball F * Ball F :=
  let normal := collisionNormal ball1 ball2 in
  let relativeSpeed := collisionRelativeSpeed ball1 ball2 in
  let '(ball1, ball2) := correctPositions ball1 ball2 in
  applyImpulse normal relativeSpeed ball1 ball2.
End Physics.

(** ** Loops over the ball vector

    [std::vector<Ball>] is a list indexed from 0; [balls[i]] is read with
    [!!] and written with [<[i:=_]>].  Every index the program uses is
    below [balls.size()], so the out-of-range behaviour of the two never
    shows. *)

(* for (int k = lo; k < hi; k++) body(k) *)
Definition for_loop {S : Type} (lo hi : nat) (body : nat -> S -> S) (s : S) : S :=
  fold_left (fun s k => body k s) (seq lo (hi - lo)) s.

Section Collisions.
Context {F : Type} `{Scalar F}.

(* The body of the innermost loop of handleCollisions. *)
Definition collidePair (i j : nat) (balls : list (Ball F)) : list (Ball F) :=
  match balls !! i, balls !! j with
  | Some ball1, Some ball2 =>
      if checkBallCollision ball1 ball2 then
        let '(ball1', ball2') := resolveBallCollision ball1 ball2 in
        <[j := ball2']> (<[i := ball1']> balls)
      else balls
  | _, _ => balls
  end.

Definition maxIterations : nat := 10.

Definition handleCollisions (balls : list (Ball F)) : list (Ball F) :=
  for_loop 0 maxIterations (fun iteration balls =>
    for_loop 0 (length balls) (fun i balls =>
      for_loop (i + 1) (length balls) (fun j balls =>
        collidePair i j balls) balls) balls) balls.
End Collisions.

(** ** The frame loop of main *)

Record Sim (F : Type) : Type := mkSim {
  st_balls : list (Ball F);
  st_isDragging : bool;
  st_draggedBallIndex : Z
}.
Arguments mkSim {F} _ _ _.
Arguments st_balls {F} _.
Arguments st_isDragging {F} _.
Arguments st_draggedBallIndex {F} _.

(* What the windowing library reports in one frame. *)
Record Input (F : Type) : Type := mkInput {
  GetFrameTime : F;
  IsMouseButtonPressed : bool;
  IsMouseButtonReleased : bool;
  GetMousePosition : Vector2 F;
  GetMouseX : Z;
  GetMouseY : Z
}.
Arguments mkInput {F} _ _ _ _ _ _.
Arguments GetFrameTime {F} _.
Arguments IsMouseButtonPressed {F} _.
Arguments IsMouseButtonReleased {F} _.
Arguments GetMousePosition {F} _.
Arguments GetMouseX {F} _.
Arguments GetMouseY {F} _.

Definition screenWidth : Z := 1600.
Definition screenHeight : Z := 900.

(** *** Creation of the balls (lines 88-100)

    The C library's rand() is read as a stream of ints, [rand k] being the
    value of the k-th call after srand; it never returns a negative value.
    C's [%] and [/] on ints truncate towards zero, which is [Z.rem] and
    [Z.quot]; the cast to unsigned char reduces modulo 256. *)

Definition ballCount : nat := 800.

Definition to_uchar (z : Z) : Z := (z mod 256)%Z.

(* The body of the creation loop, [k] calls of rand() having been made:
   the seven calls are made in the order in which the source writes
   them. *)
Definition newBall {F} `{Scalar F} (rand : nat -> Z) (k : nat) : Ball F :=
  let random := Z.rem (rand k) 256 in
  let position :=
    mkVector2 (of_int (Z.rem (rand (k + 1)) screenWidth))
              (of_int (Z.rem (rand (k + 2)) screenHeight)) in
  let velocity :=
    mkVector2 (of_int (Z.rem (rand (k + 3)) 200 - 100))
              (of_int (Z.rem (rand (k + 4)) 200 - 100)) in
  let radius := of_int 5 in
  let mass := mul radius (of_int (Z.quot random 16 + 1)) in
  let color :=
    Color.mk (to_uchar random) (to_uchar (Z.rem (rand (k + 5)) 256))
             (to_uchar (Z.rem (rand (k + 6)) 256)) 255 in
  mkBall position velocity Vector2Zero radius mass color.

(* The creation loop: the vector so far and the number of calls made. *)
Definition createBalls {F} `{Scalar F} (rand : nat -> Z) : list (Ball F) :=
  (for_loop 0 ballCount
     (fun i '(balls, k) => (balls ++ [newBall rand k], k + 7)) ([], 0)).1.

(* balls[i] for an int index; a negative index reads nothing. *)
Definition ball_at {F} (balls : list (Ball F)) (i : Z) : option (Ball F) :=
  if (i <? 0)%Z then None else balls !! Z.to_nat i.

Definition store_at {F} (balls : list (Ball F)) (i : Z) (ball : Ball F) : list (Ball F) :=
  if (i <? 0)%Z then balls else <[Z.to_nat i := ball]> balls.

Section Frame.
Context {F : Type} `{Scalar F}.
(* raylib's hit test of a point against a circle. *)
Variable CheckCollisionPointCircle : Vector2 F -> Vector2 F -> F -> bool.
Local Open Scope scalar_scope.

(* The search loop of the press handler: the first ball under the
   pointer, scanning from index [i]. *)
Fixpoint firstHit (point : Vector2 F) (i : nat) (balls : list (Ball F)) : option nat :=
  match balls with
  | [] => None
  | ball :: rest =>
      if CheckCollisionPointCircle point (position ball) (radius ball)
      then Some i
      else firstHit point (S i) rest
  end.

Definition handlePress (inp : Input F) (st : Sim F) : Sim F :=
  if IsMouseButtonPressed inp then
    match firstHit (GetMousePosition inp) 0 (st_balls st) with
    | Some i => mkSim (st_balls st) true (Z.of_nat i)
    | None => st
    end
  else st.

(* The velocity given to the dragged ball on release. *)
Definition releaseVelocity (inp : Input F) (ball : Ball F) : Vector2 F :=
  let deltaTime := GetFrameTime inp in
  mkVector2 ((of_int (GetMouseX inp) - x (position ball)) / deltaTime)
            ((of_int (GetMouseY inp) - y (position ball)) / deltaTime).

Definition handleRelease (inp : Input F) (st : Sim F) : Sim F :=
  if IsMouseButtonReleased inp && st_isDragging st then
    match ball_at (st_balls st) (st_draggedBallIndex st) with
    | Some ball =>
        mkSim (store_at (st_balls st) (st_draggedBallIndex st)
                 (set_velocity ball (releaseVelocity inp ball)))
              false (st_draggedBallIndex st)
    | None => mkSim (st_balls st) false (st_draggedBallIndex st)
    end
  else st.

Definition handleDrag (inp : Input F) (st : Sim F) : Sim F :=
  if st_isDragging st then
    match ball_at (st_balls st) (st_draggedBallIndex st) with
    | Some ball =>
        mkSim (store_at (st_balls st) (st_draggedBallIndex st)
                 (set_position ball
                    (mkVector2 (of_int (GetMouseX inp)) (of_int (GetMouseY inp)))))
              true (st_draggedBallIndex st)
    | None => st
    end
  else st.

(* The inner loop over [otherBall]: one Add per ball other than ball i. *)
Fixpoint accumulate (ball : Ball F) (i j : nat) (others : list (Ball F))
    (k : KahanVector2Sum F) : KahanVector2Sum F :=
  match others with
  | [] => k
  | otherBall :: rest =>
      let k' :=
        if (j =? i)%nat then k
        else
          let force := calculateGravitationalForce ball otherBall in
          Add k (Vector2Scale force (of_int 1 / mass ball)) in
      accumulate ball i (S j) rest k'
  end.

(* Lines 135-153: force accumulation and semi-implicit Euler step of
   ball i, reading the other balls from the vector as it stands. *)
Definition integrate (deltaTime : F) (balls : list (Ball F)) (i : nat)
    (ball : Ball F) : Ball F :=
  let ball := set_acceleration ball Vector2Zero in
  let kahanAccelerationSum := accumulate ball i 0 balls KahanVector2Sum_new in
  let ball := set_acceleration ball (GetSum kahanAccelerationSum) in
  let kahanVelocitySum :=
    Add (Add KahanVector2Sum_new (velocity ball))
        (Vector2Scale (acceleration ball) deltaTime) in
  let ball := set_velocity ball (GetSum kahanVelocitySum) in
  let kahanPositionSum :=
    Add (Add KahanVector2Sum_new (position ball))
        (Vector2Scale (velocity ball) deltaTime) in
  set_position ball (GetSum kahanPositionSum).

(* Lines 156-168: the four bounds tests, in the source's order. *)
Definition wrapBounds (ball : Ball F) : Ball F :=
  let ball :=
    if y (position ball) >? of_int screenHeight + radius ball
    then set_position ball (set_y (position ball) (- radius ball)) else ball in
  let ball :=
    if y (position ball) <? - radius ball
    then set_position ball (set_y (position ball) (of_int screenHeight + radius ball))
    else ball in
  let ball :=
    if x (position ball) >? of_int screenWidth + radius ball
    then set_position ball (set_x (position ball) (- radius ball)) else ball in
  let ball :=
    if x (position ball) <? - radius ball
    then set_position ball (set_x (position ball) (of_int screenWidth + radius ball))
    else ball in
  ball.

(* The body of the loop at lines 132-169 for index i, run on the vector
   [balls] as the iteration finds it. *)
Definition updateBall (isDragging : bool) (deltaTime : F) (i : nat)
    (balls : list (Ball F)) : list (Ball F) :=
  match balls !! i with
  | Some ball =>
      let ball := if negb isDragging then integrate deltaTime balls i ball else ball in
      <[i := wrapBounds ball]> balls
  | None => balls
  end.

(* The loop, its bodies run in index order: one of the schedules that the
   pragma at line 131 allows. *)
Definition updateBalls (isDragging : bool) (deltaTime : F)
    (balls : list (Ball F)) : list (Ball F) :=
  for_loop 0 (length balls) (updateBall isDragging deltaTime) balls.

(* One pass of the while loop, drawing left out. *)
Definition frame (inp : Input F) (st : Sim F) : Sim F :=
  let deltaTime := GetFrameTime inp in
  let st := handlePress inp st in
  let st := handleRelease inp st in
  let st := handleDrag inp st in
  let balls := updateBalls (st_isDragging st) deltaTime (st_balls st) in
  mkSim (handleCollisions balls) (st_isDragging st) (st_draggedBallIndex st).
End Frame.

(* What the two tests of one axis do to that coordinate: the upper test
   first, the lower test on its result. *)
Definition wrapCoord {F} `{Scalar F} (limit : Z) (rad p : F) : F :=
  let p := if ltb (add (of_int limit) rad) p then neg rad else p in
  if ltb p (neg rad) then add (of_int limit) rad else p.

(** ** Compensated summation: what the program runs, and the
    specification's wording of it *)

Section KahanSpec.
Context {F : Type} `{Scalar F}.
Local Open Scope scalar_scope.

(* What the program computes when it adds [values] one at a time to a
   fresh accumulator and asks for the sum. *)
Definition kahanSum (values : list (Vector2 F)) : Vector2 F :=
  GetSum (fold_left Add values KahanVector2Sum_new).

(* The algorithm in the words of the specification, on one coordinate,
   the state being the pair (sum, c):
   y = value - c; t = sum + y; c = (t - sum) - y; sum = t. *)
Definition spec_kahan_step (acc : F * F) (value : F) : F * F :=
  let '(sum, c) := acc in
  let y := value - c in
  let t := sum + y in
  let c := (t - sum) - y in
  let sum := t in
  (sum, c).

Definition spec_kahan (values : list F) : F :=
  (fold_left spec_kahan_step values (of_int 0, of_int 0)).1.

(* A vector sum runs the scalar algorithm on each coordinate. *)
Definition spec_kahan_sum (values : list (Vector2 F)) : Vector2 F :=
  mkVector2 (spec_kahan (map x values)) (spec_kahan (map y values)).

End KahanSpec.

(* The plain sum of a list of real vectors. *)
Definition vector_sum (values : list (Vector2 R)) : Vector2 R :=
  mkVector2 (fold_right Rplus 0%R (map x values))
            (fold_right Rplus 0%R (map y values)).


(** ** Quantities the specification speaks of *)

Section SpecQuantities.
Context {F : Type} `{Scalar F}.
Local Open Scope scalar_scope.

(* Total momentum of a pair: m1 * v1 + m2 * v2. *)
Definition totalMomentum (ball1 ball2 : Ball F) : Vector2 F :=
  Vector2Add (Vector2Scale (velocity ball1) (mass ball1))
             (Vector2Scale (velocity ball2) (mass ball2)).

(* Kinetic energy of a ball: m * |v|^2 / 2. *)
Definition kineticEnergy (ball : Ball F) : F :=
  (mass ball * Vector2DotProduct (velocity ball) (velocity ball)) / of_int 2.

(* m1 * p1 + m2 * p2: the centre of mass of a pair, times its total mass. *)
Definition massMoment (ball1 ball2 : Ball F) : Vector2 F :=
  Vector2Add (Vector2Scale (position ball1) (mass ball1))
             (Vector2Scale (position ball2) (mass ball2)).

(* Overlap of two circles: (r1 + r2) - distance between the centres. *)
Definition overlapOf (ball1 ball2 : Ball F) : F :=
  (radius ball1 + radius ball2) - Vector2Distance (position ball1) (position ball2).

(* The velocity of ball2 relative to ball1, projected on [normal]:
   negative when the two approach along it, positive when they part. *)
Definition speedAlong (normal : Vector2 F) (ball1 ball2 : Ball F) : F :=
  Vector2DotProduct (Vector2Subtract (velocity ball2) (velocity ball1)) normal.

(* The pairwise force in the specification's words:
   direction = normalize(target.position - source.position);
   distance = |target.position - source.position| + softening constant;
   magnitude = G * mass(source) * mass(target) / distance^2;
   force = direction * magnitude, with G = 1000 and softening 10. *)
Definition spec_force (source target : Ball F) : Vector2 F :=
  let separation := Vector2Subtract (position target) (position source) in
  let direction := Vector2Normalize separation in
  let distance := Vector2Length separation + of_int 10 in
  let magnitude := (of_int 1000 * mass source * mass target) / (distance * distance) in
  Vector2Scale direction magnitude.

(* The term that [other] adds to the acceleration of [ball] at line 140. *)
Definition contribution (ball other : Ball F) : Vector2 F :=
  Vector2Scale (calculateGravitationalForce ball other) (of_int 1 / mass ball).

(* Every ball of the vector other than the one at index i, in order. *)
Definition others (i : nat) (balls : list (Ball F)) : list (Ball F) :=
  take i balls ++ drop (S i) balls.

End SpecQuantities.

(* The loop nest of a pass with its body left open: [visit i j] is run for
   i from 0 and j from i + 1, both below n. *)
Definition pairLoops {S : Type} (n : nat) (visit : nat -> nat -> S -> S) (s : S) : S :=
  for_loop 0 n (fun i s => for_loop (i + 1) n (fun j s => visit i j s) s) s.

(* The index pairs (i, j) with i < j < n, row by row: all pairs of row 0,
   then all pairs of row 1, and so on, j increasing inside a row. *)
Definition index_pairs (n : nat) : list (nat * nat) :=
  flat_map (fun i => map (fun j => (i, j)) (seq (i + 1) (n - (i + 1)))) (seq 0 n).

(* The order in which a pass meets the pairs. *)
Definition pair_before (p q : nat * nat) : Prop :=
  p.1 < q.1 \/ (p.1 = q.1 /\ p.2 < q.2).

(* One collision pass in the specification's words: every pair in index
   order i < j, resolution applied to the pairs that are detected. *)
Definition collision_pass {F} `{Scalar F} (balls : list (Ball F)) : list (Ball F) :=
  fold_left (fun balls pair => collidePair pair.1 pair.2 balls)
            (index_pairs (length balls)) balls.

(* The unit vector from p towards q, over the reals.  When p = q the
   quotient 0 / 0 is 0, and the vector is the zero vector. *)
Definition unitDirection (p q : Vector2 R) : Vector2 R :=
  let dist := sqrt ((x q - x p) * (x q - x p) + (y q - y p) * (y q - y p)) in
  mkVector2 ((x q - x p) / dist)%R ((y q - y p) / dist)%R.

(* The magnitude the specification gives for the pull between two balls
   whose centres are [dist] apart: G * m1 * m2 / (dist + 10)^2. *)
Definition spec_magnitude {F} `{Scalar F} (m1 m2 dist : F) : F :=
  div (mul (mul (of_int 1000) m1) m2)
      (mul (add dist (of_int 10)) (add dist (of_int 10))).

(* What a ball is made of, as opposed to how it moves: the three fields
   set at creation. *)
Definition body {F} (ball : Ball F) : F * F * Color.t :=
  (radius ball, mass ball, color ball).

(* resolveBallCollision called [n] times in a row on the same pair. *)
Definition resolveRepeatedly {F} `{Scalar F} (n : nat) (ball1 ball2 : Ball F)
    : Ball F * Ball F :=
  Nat.iter n (fun pair => resolveBallCollision pair.1 pair.2) (ball1, ball2).

(* A single-precision value that is a number: not an infinity, not a NaN. *)
Definition is_finite (f : binary32) : bool :=
  match f with
  | S754_zero _ | S754_finite _ _ _ => true
  | S754_infinity _ | S754_nan => false
  end.

(** ** Concrete balls used as test inputs *)

Definition white : Color.t := Color.mk 255 255 255 255.

(* A ball at rest at integer coordinates, radius [rad] and mass [m]. *)
Definition restingBall {F} `{Scalar F} (px py rad m : Z) : Ball F :=
  mkBall (mkVector2 (of_int px) (of_int py)) Vector2Zero Vector2Zero
         (of_int rad) (of_int m) white.

(* A ball with integer position and velocity. *)
Definition movingBall {F} `{Scalar F} (px py vx vy rad m : Z) : Ball F :=
  mkBall (mkVector2 (of_int px) (of_int py)) (mkVector2 (of_int vx) (of_int vy))
         Vector2Zero (of_int rad) (of_int m) white.

(* Two balls at rest, 30 apart, well inside the viewport; neither
   overlaps the other. *)
Definition twoBalls {F} `{Scalar F} : list (Ball F) :=
  [restingBall 100 100 5 5; restingBall 130 100 5 5].

(* A frame one second long in which the pointer rests at (100, 100) and no
   button changes state. *)
Definition quietInput {F} `{Scalar F} : Input F :=
  mkInput (of_int 1) false false (mkVector2 (of_int 100) (of_int 100)) 100 100.

(* A hit test that never hits; the frames below press no button. *)
Definition noHit {F} : Vector2 F -> Vector2 F -> F -> bool := fun _ _ _ => false.

(* A frame one second long in which the button is released with the
   pointer at (130, 100). *)
Definition releaseInput {F} `{Scalar F} : Input F :=
  mkInput (of_int 1) false true (mkVector2 (of_int 130) (of_int 100)) 130 100.

(* A hit test that always hits. *)
Definition anyHit {F} : Vector2 F -> Vector2 F -> F -> bool := fun _ _ _ => true.

(* A frame one second long in which the button goes down with the pointer
   at (100, 100). *)
Definition pressInput {F} `{Scalar F} : Input F :=
  mkInput (of_int 1) true false (mkVector2 (of_int 100) (of_int 100)) 100 100.

(* A rand() that counts: 0, 1, 2, ... *)
Definition countingRand : nat -> Z := Z.of_nat.

(* Two balls of radius 5 at the same spot, of mass 5 and 10. *)
Definition stackedBalls {F} `{Scalar F} : list (Ball F) :=
  [restingBall 100 100 5 5; restingBall 100 100 5 10].

(* Two balls of mass 5 at rest, 5 apart. *)
Definition closePair {F} `{Scalar F} : Ball F * Ball F :=
  (restingBall 100 100 5 5, restingBall 104 103 5 5).

(* Two overlapping balls at rest with distinct centres, of mass 5 and 15. *)
Definition skewPair {F} `{Scalar F} : Ball F * Ball F :=
  (restingBall 100 100 5 5, restingBall 103 107 5 15).

(* Two overlapping balls of mass 5, centres (100, 100) and (104, 103), that
   approach each other very slowly along the line of centres: velocities
   (70, 70) and (73, 66 - 2^-17), in single precision. *)
Definition grazingPair : Ball binary32 * Ball binary32 :=
  (movingBall 100 100 70 70 5 5,
   mkBall (mkVector2 (of_int 104) (of_int 103))
          (mkVector2 (of_int 73) (sub (of_int 66) (div (of_int 1) (of_int 131072))))
          Vector2Zero (of_int 5) (of_int 5) white).

(** * Properties *)

(** ** Plumbing: reading the scalar operations at [R] *)

Ltac at_R :=
  cbn [of_int add sub mul div neg sqrtf ltb R_Scalar] in *.

Ltac unfold_vec :=
  unfold GetSum, Add, KahanVector2Sum_new, Vector2Zero, Vector2Add,
    Vector2Subtract, Vector2Scale, Vector2DotProduct, Vector2Length,
    Vector2Distance, set_x, set_y in *;
  cbn [x y sum c] in *.

(* Two real vectors are equal when their coordinates are. *)
Ltac vec_eq := unfold_vec; at_R; f_equal; try lra.

Lemma ltb_R_true (u v : R) : ltb u v = true <-> (u < v)%R.
Proof. at_R. destruct (Rlt_dec u v); split; intros; (done || lra). Qed.

Lemma ltb_R_false (u v : R) : ltb u v = false <-> (v <= u)%R.
Proof. at_R. destruct (Rlt_dec u v); split; intros; (done || lra). Qed.

Lemma Vector2_eta {F} (v : Vector2 F) : mkVector2 (x v) (y v) = v.
Proof. by destruct v. Qed.

(** ** Compensated summation *)

Section KahanFacts.
Context {F : Type} `{Scalar F}.
Local Open Scope scalar_scope.

Lemma fold_Add_spec (values : list (Vector2 F)) (k : KahanVector2Sum F) :
  fold_left spec_kahan_step (map x values) (x (sum k), x (c k))
    = (x (sum (fold_left Add values k)), x (c (fold_left Add values k))) /\
  fold_left spec_kahan_step (map y values) (y (sum k), y (c k))
    = (y (sum (fold_left Add values k)), y (c (fold_left Add values k))).
Proof.
  revert k. induction values as [|v values IH]; intros k; [done|].
  cbn [fold_left map]. destruct (IH (Add k v)) as [<- <-]. done.
Qed.
End KahanFacts.

Lemma fold_Add_exact (values : list (Vector2 R)) (k : KahanVector2Sum R) :
  c k = Vector2Zero ->
  c (fold_left Add values k) = Vector2Zero /\
  sum (fold_left Add values k) = Vector2Add (sum k) (vector_sum values).
Proof.
  revert k. induction values as [|v values IH]; intros k Hc.
  - split; [done|]. destruct k as [[sx sy] cc]. cbn [fold_left].
    unfold vector_sum. cbn [map fold_right]. vec_eq.
  - cbn [fold_left].
    destruct (IH (Add k v)) as [Hc' Hs].
    + destruct k as [[sx sy] [cx cy]]. injection Hc as -> ->. vec_eq.
    + split; [done|]. rewrite Hs.
      destruct k as [[sx sy] [cx cy]]. injection Hc as -> ->.
      unfold vector_sum. cbn [map fold_right]. vec_eq.
Qed.

Lemma kahanSum_exact (values : list (Vector2 R)) :
  kahanSum values = vector_sum values.
Proof.
  unfold kahanSum, GetSum.
  destruct (fold_Add_exact values KahanVector2Sum_new eq_refl) as [_ ->].
  unfold vector_sum. vec_eq.
Qed.

(** C7. Starting from [sum] and [c] both zero, adding terms one at a time
    performs on each term exactly the updates y = value - c; t = sum + y;
    c = (t - sum) - y; sum = t, and the sum is what is returned; over the
    reals the returned value is the plain sum of the terms, and the
    compensation term stays zero. *)
Theorem kahan_sum_correct :
  (forall (F : Type) (ops : Scalar F) (values : list (Vector2 F)),
      kahanSum values = spec_kahan_sum values) /\
  (forall values : list (Vector2 R),
      kahanSum values = vector_sum values /\
      c (fold_left Add values KahanVector2Sum_new) = Vector2Zero).
Proof.
  split.
  - intros F ops values. unfold kahanSum, spec_kahan_sum, GetSum.
    destruct (fold_Add_spec values KahanVector2Sum_new) as [Hx Hy].
    unfold spec_kahan. cbn in Hx, Hy. rewrite Hx, Hy. cbn [fst].
    symmetry. apply Vector2_eta.
  - intros values. split; [apply kahanSum_exact|].
    by destruct (fold_Add_exact values KahanVector2Sum_new eq_refl).
Qed.

(** ** Boundary wrap (C4) *)

Ltac case_ltb :=
  repeat match goal with
         | |- context [Rlt_dec ?u ?v] => destruct (Rlt_dec u v)
         | H : context [Rlt_dec ?u ?v] |- _ => destruct (Rlt_dec u v)
         end.

Lemma wrapBounds_keeps {F} `{Scalar F} (ball : Ball F) :
  velocity (wrapBounds ball) = velocity ball /\
  acceleration (wrapBounds ball) = acceleration ball /\
  radius (wrapBounds ball) = radius ball /\
  mass (wrapBounds ball) = mass ball /\
  color (wrapBounds ball) = color ball.
Proof.
  unfold wrapBounds.
  repeat match goal with |- context [if ?t then _ else _] => destruct t end;
    done.
Qed.

(* The four tests act on each coordinate separately. *)
Lemma wrapBounds_position {F} `{Scalar F} (ball : Ball F) :
  position (wrapBounds ball) =
    mkVector2 (wrapCoord screenWidth (radius ball) (x (position ball)))
              (wrapCoord screenHeight (radius ball) (y (position ball))).
Proof.
  destruct ball as [[px py] v acc rad m col].
  unfold wrapBounds, wrapCoord. cbn [position radius x y].
  destruct (ltb (add (of_int screenHeight) rad) py);
    cbn [set_position set_y position radius x y];
    (destruct (ltb _ (neg rad)); cbn [set_position set_y position radius x y]);
    (destruct (ltb (add (of_int screenWidth) rad) px);
     cbn [set_position set_x position radius x y]);
    (destruct (ltb _ (neg rad)); reflexivity).
Qed.

Lemma wrapCoord_R (limit : Z) (rad p : R) :
  (0 <= IZR limit)%R -> (0 < rad)%R ->
  ((IZR limit + rad < p)%R -> wrapCoord limit rad p = (- rad)%R) /\
  ((p < - rad)%R -> wrapCoord limit rad p = (IZR limit + rad)%R) /\
  ((- rad <= p <= IZR limit + rad)%R -> wrapCoord limit rad p = p) /\
  wrapCoord limit rad (wrapCoord limit rad p) = wrapCoord limit rad p.
Proof.
  intros Hl Hr. unfold wrapCoord.
  cbn [of_int add neg ltb R_Scalar].
  repeat split; intros; case_ltb; lra.
Qed.

(** C4, as the code has it.  For a ball of positive radius and on either
    axis: a coordinate strictly greater than viewport max + radius becomes
    -radius; a coordinate strictly less than -radius becomes viewport
    max + radius; every coordinate in between, the value viewport
    max + radius itself included, is left where it is.  So
    viewportWidth + radius + eps goes to -radius and -radius - eps goes to
    viewportWidth + radius, and both images are fixed by a further wrap. *)
Theorem wrapBounds_axis (ball : Ball R) :
  (0 < radius ball)%R ->
  let px := x (position ball) in
  let py := y (position ball) in
  let rad := radius ball in
  let px' := x (position (wrapBounds ball)) in
  let py' := y (position (wrapBounds ball)) in
  ((IZR screenWidth + rad < px)%R -> px' = (- rad)%R) /\
  ((px < - rad)%R -> px' = (IZR screenWidth + rad)%R) /\
  ((- rad <= px <= IZR screenWidth + rad)%R -> px' = px) /\
  ((IZR screenHeight + rad < py)%R -> py' = (- rad)%R) /\
  ((py < - rad)%R -> py' = (IZR screenHeight + rad)%R) /\
  ((- rad <= py <= IZR screenHeight + rad)%R -> py' = py) /\
  (forall eps, (0 < eps)%R ->
     (px = (IZR screenWidth + rad + eps)%R -> px' = (- rad)%R) /\
     (px = (- rad - eps)%R -> px' = (IZR screenWidth + rad)%R)) /\
  x (position (wrapBounds (wrapBounds ball))) = px' /\
  y (position (wrapBounds (wrapBounds ball))) = py'.
Proof.
  intros Hr px py rad px' py'. subst px py rad px' py'.
  rewrite (wrapBounds_position (wrapBounds ball)).
  destruct (wrapBounds_keeps ball) as (_ & _ & -> & _).
  rewrite (wrapBounds_position ball). cbn [x y].
  assert (Hw : (0 <= IZR screenWidth)%R) by (unfold screenWidth; lra).
  assert (Hh : (0 <= IZR screenHeight)%R) by (unfold screenHeight; lra).
  destruct (wrapCoord_R screenWidth (radius ball) (x (position ball)) Hw Hr)
    as (Hx1 & Hx2 & Hx3 & Hx4).
  destruct (wrapCoord_R screenHeight (radius ball) (y (position ball)) Hh Hr)
    as (Hy1 & Hy2 & Hy3 & Hy4).
  refine (conj Hx1 (conj Hx2 (conj Hx3 (conj Hy1 (conj Hy2 (conj Hy3
            (conj _ (conj Hx4 Hy4)))))))).
  intros eps Heps. split; intros Heq; [apply Hx1 | apply Hx2]; lra.
Qed.

Lemma wrapBounds_axis_witness :
  x (position (wrapBounds (restingBall (F:=R) 1606 100 5 5))) = (- 5)%R.
Proof.
  assert (Hr : (0 < radius (restingBall (F:=R) 1606 100 5 5))%R)
    by (cbn [restingBall radius of_int R_Scalar]; lra).
  destruct (wrapBounds_axis (restingBall 1606 100 5 5) Hr) as [Hx _].
  cbv zeta in Hx. cbn [restingBall radius position x of_int R_Scalar] in Hx.
  apply Hx. unfold screenWidth. lra.
Defined.

(** C4 as worded fails at the edge itself: a ball of radius 5 whose x is
    exactly viewportWidth + radius = 1605 keeps x = 1605 and is not moved
    to -radius, in real and in single-precision arithmetic alike. *)
Lemma wrap_exactly_at_edge_not_wrapped :
  (let ball := restingBall (F:=R) 1605 100 5 5 in
   x (position ball) = (IZR screenWidth + radius ball)%R /\
   x (position (wrapBounds ball)) = 1605%R /\
   x (position (wrapBounds ball)) <> (- radius ball)%R) /\
  (let ball := restingBall (F:=binary32) 1605 100 5 5 in
   x (position ball) = add (of_int screenWidth) (radius ball) /\
   x (position (wrapBounds ball)) = of_int 1605 /\
   x (position (wrapBounds ball)) <> neg (radius ball)).
Proof.
  split.
  - cbv zeta.
    assert (Hx : x (position (wrapBounds (restingBall (F:=R) 1605 100 5 5)))
                 = 1605%R).
    { rewrite wrapBounds_position.
      cbn [restingBall radius position x of_int R_Scalar].
      apply wrapCoord_R; unfold screenWidth; lra. }
    rewrite Hx. cbn [restingBall radius position x of_int R_Scalar].
    unfold screenWidth. repeat split; lra.
  - cbv zeta. repeat split; [vm_compute; done ..|].
    vm_compute. discriminate.
Qed.

(** ** Loops that touch one index per iteration *)

Lemma for_loop_empty {S : Type} (lo hi : nat) (body : nat -> S -> S) (s : S) :
  hi <= lo -> for_loop lo hi body s = s.
Proof. intros Hle. unfold for_loop. by replace (hi - lo) with 0 by lia. Qed.

Lemma for_loop_last {S : Type} (lo hi : nat) (body : nat -> S -> S) (s : S) :
  lo <= hi -> for_loop lo (hi + 1) body s = body hi (for_loop lo hi body s).
Proof.
  intros Hle. unfold for_loop.
  replace (hi + 1 - lo) with ((hi - lo) + 1) by lia.
  rewrite seq_app, fold_left_app. cbn [seq fold_left].
  by replace (lo + (hi - lo)) with hi by lia.
Qed.

Lemma for_loop_first {S : Type} (lo hi : nat) (body : nat -> S -> S) (s : S) :
  lo < hi -> for_loop lo hi body s = for_loop (lo + 1) hi body (body lo s).
Proof.
  intros Hlt. unfold for_loop.
  replace (hi - lo) with (Datatypes.S (hi - (lo + 1))) by lia.
  cbn [seq fold_left]. by replace (Datatypes.S lo) with (lo + 1) by lia.
Qed.

Lemma for_loop_ext {S : Type} (lo hi : nat) (body body' : nat -> S -> S) (s : S) :
  (forall k t, lo <= k < hi -> body k t = body' k t) ->
  for_loop lo hi body s = for_loop lo hi body' s.
Proof.
  intros Hext. destruct (decide (hi <= lo)) as [Hle|Hgt].
  { by rewrite !for_loop_empty. }
  assert (Hlo : lo <= hi) by lia. clear Hgt.
  induction Hlo as [|hi Hlo IH].
  - by rewrite !for_loop_empty.
  - replace (Datatypes.S hi) with (hi + 1) in * by lia.
    rewrite !for_loop_last by done.
    rewrite IH; [apply Hext; lia|]. intros k t Hk. apply Hext. lia.
Qed.

Section IndexLocal.
Context {A : Type} (body : nat -> list A -> list A).
Hypothesis body_length : forall k l, length (body k l) = length l.
Hypothesis body_other : forall k j l, j <> k -> body k l !! j = l !! j.

Lemma for_loop_length lo hi l : length (for_loop lo hi body l) = length l.
Proof.
  destruct (decide (hi <= lo)) as [Hle|Hgt]; [by rewrite for_loop_empty|].
  assert (Hlo : lo <= hi) by lia. clear Hgt.
  induction Hlo as [|hi Hlo IH]; [by rewrite for_loop_empty|].
  replace (Datatypes.S hi) with (hi + 1) by lia.
  by rewrite for_loop_last, body_length.
Qed.

Lemma for_loop_lookup_out lo hi j l :
  j < lo \/ hi <= j -> for_loop lo hi body l !! j = l !! j.
Proof.
  intros Hj.
  destruct (decide (hi <= lo)) as [Hle|Hgt]; [by rewrite for_loop_empty|].
  assert (Hlo : lo <= hi) by lia. clear Hgt.
  induction Hlo as [|hi Hlo IH]; [by rewrite for_loop_empty|].
  replace (Datatypes.S hi) with (hi + 1) by lia.
  rewrite for_loop_last by done.
  rewrite body_other by lia. apply IH. lia.
Qed.

Lemma for_loop_lookup_in lo hi j l :
  lo <= j < hi ->
  for_loop lo hi body l !! j = body j (for_loop lo j body l) !! j.
Proof.
  intros [Hlo Hhi].
  assert (Hle : j + 1 <= hi) by lia. clear Hhi.
  induction Hle as [|hi Hle IH]; [by rewrite for_loop_last|].
  replace (Datatypes.S hi) with (hi + 1) by lia.
  rewrite for_loop_last by lia.
  rewrite body_other by lia. apply IH.
Qed.
End IndexLocal.

(** ** The update loop of the frame *)

Section UpdateLoop.
Context {F : Type} `{Scalar F}.

Lemma updateBall_length flag dt k (balls : list (Ball F)) :
  length (updateBall flag dt k balls) = length balls.
Proof. unfold updateBall. destruct (balls !! k); [apply length_insert|done]. Qed.

Lemma updateBall_other flag dt k j (balls : list (Ball F)) :
  j <> k -> updateBall flag dt k balls !! j = balls !! j.
Proof.
  intros Hne. unfold updateBall.
  destruct (balls !! k); [by apply list_lookup_insert_ne|done].
Qed.

Lemma updateBalls_length flag dt (balls : list (Ball F)) :
  length (updateBalls flag dt balls) = length balls.
Proof. apply for_loop_length. apply updateBall_length. Qed.

(* Ball i leaves the loop as its own iteration made it, and that
   iteration read the vector as iterations 0..i-1 had left it. *)
Lemma updateBalls_lookup flag dt (balls : list (Ball F)) i ball :
  balls !! i = Some ball ->
  updateBalls flag dt balls !! i =
    Some (wrapBounds
            (if negb flag
             then integrate dt (for_loop 0 i (updateBall flag dt) balls) i ball
             else ball)).
Proof.
  intros Hi. unfold updateBalls.
  pose proof (lookup_lt_Some _ _ _ Hi) as Hlt.
  rewrite for_loop_lookup_in
    by (auto using updateBall_length, updateBall_other; lia).
  assert (Hpre : for_loop 0 i (updateBall flag dt) balls !! i = Some ball).
  { rewrite for_loop_lookup_out
      by (auto using updateBall_length, updateBall_other; lia). done. }
  unfold updateBall at 1. rewrite Hpre.
  apply list_lookup_insert_eq.
  rewrite for_loop_length by apply updateBall_length. done.
Qed.

Lemma updateBalls_dragging dt (balls : list (Ball F)) :
  updateBalls true dt balls = map wrapBounds balls.
Proof.
  apply list_eq. intros i. rewrite list_lookup_fmap.
  destruct (balls !! i) as [ball|] eqn:Hi.
  - by rewrite (updateBalls_lookup _ _ _ _ _ Hi).
  - apply lookup_ge_None. rewrite updateBalls_length.
    by apply lookup_ge_None.
Qed.
End UpdateLoop.

(** ** Dragging (C1) *)

(** C1, as the code has it.  In every frame in which a ball is being
    dragged once the input is handled, the update loop accumulates no force
    and integrates nothing, for the dragged ball and for every other ball
    alike: each ball leaves the loop with its velocity and acceleration
    unchanged, its position changed by the boundary wrap only.  The flag
    tested is the frame-wide [isDragging], not the index of the ball. *)
Theorem dragging_suspends_every_ball
    {F : Type} `{Scalar F} (hit : Vector2 F -> Vector2 F -> F -> bool)
    (inp : Input F) (st : Sim F) :
  let st1 := handleDrag inp (handleRelease inp (handlePress hit inp st)) in
  st_isDragging st1 = true ->
  let balls' := updateBalls (st_isDragging st1) (GetFrameTime inp) (st_balls st1) in
  st_balls (frame hit inp st) = handleCollisions balls' /\
  balls' = map wrapBounds (st_balls st1) /\
  map velocity balls' = map velocity (st_balls st1) /\
  map acceleration balls' = map acceleration (st_balls st1).
Proof.
  intros st1 Hdrag balls'. subst balls'. rewrite Hdrag.
  rewrite updateBalls_dragging. split; [|split; [done|]].
  - unfold frame. fold st1. cbv zeta. rewrite Hdrag.
    by rewrite updateBalls_dragging.
  - rewrite !map_map. split; apply map_ext; intros ball;
      by destruct (wrapBounds_keeps ball) as (? & ? & _).
Qed.

Lemma dragging_suspends_every_ball_witness :
  st_balls (frame noHit quietInput (mkSim (twoBalls (F:=binary32)) true 0))
  = handleCollisions (map wrapBounds (twoBalls (F:=binary32))).
Proof.
  destruct (dragging_suspends_every_ball noHit quietInput
              (mkSim (twoBalls (F:=binary32)) true 0)) as (Hf & Hb & _).
  - vm_compute. reflexivity.
  - rewrite Hf, Hb. vm_compute. reflexivity.
Defined.

(** C1 as worded fails for the balls that are not dragged.  Ball 0 is the
    dragged one and ball 1, 30 units away, is not; integrating ball 1
    against ball 0 would give it a nonzero acceleration and velocity, yet
    it leaves the frame exactly as it entered. *)
Lemma dragging_freezes_the_other_ball :
  let balls := twoBalls (F:=binary32) in
  let st := mkSim balls true 0 in
  exists ball1,
    balls !! 1 = Some ball1 /\
    st_balls (frame noHit quietInput st) !! 1 = Some ball1 /\
    acceleration (integrate (GetFrameTime quietInput) balls 1 ball1)
      <> acceleration ball1 /\
    velocity (integrate (GetFrameTime quietInput) balls 1 ball1)
      <> velocity ball1 /\
    wrapBounds (integrate (GetFrameTime quietInput) balls 1 ball1) <> ball1.
Proof.
  cbv zeta. eexists. split; [reflexivity|].
  split; [vm_compute; reflexivity|].
  repeat split; vm_compute; discriminate.
Qed.

(** ** Real-number facts about the raymath functions *)

Lemma Vector2Length_nonneg (v : Vector2 R) : (0 <= Vector2Length v)%R.
Proof. unfold Vector2Length. at_R. apply sqrt_pos. Qed.

Lemma Vector2Distance_nonneg (v1 v2 : Vector2 R) : (0 <= Vector2Distance v1 v2)%R.
Proof. unfold Vector2Distance. at_R. apply sqrt_pos. Qed.

Lemma sum_squares_pos (u v : R) : (u <> 0 \/ v <> 0)%R -> (0 < u * u + v * v)%R.
Proof. intros [Hu|Hv]; nra. Qed.

Lemma Vector2Length_pos (v : Vector2 R) :
  v <> Vector2Zero -> (0 < Vector2Length v)%R.
Proof.
  intros Hv. unfold Vector2Length. at_R. apply sqrt_lt_R0.
  apply sum_squares_pos.
  destruct v as [vx vy]. cbn [x y].
  destruct (Req_dec vx 0) as [->|Hx]; [|by left].
  destruct (Req_dec vy 0) as [->|Hy]; [|by right].
  by destruct Hv.
Qed.

Lemma Vector2Length_sqr (v : Vector2 R) :
  (Vector2Length v * Vector2Length v = x v * x v + y v * y v)%R.
Proof. unfold Vector2Length. at_R. apply sqrt_sqrt. nra. Qed.

(* Away from the zero vector, normalising divides by the length. *)
Lemma Vector2Normalize_R (v : Vector2 R) :
  v <> Vector2Zero ->
  Vector2Normalize v =
    mkVector2 (x v * (1 / Vector2Length v))%R (y v * (1 / Vector2Length v))%R.
Proof.
  intros Hv. pose proof (Vector2Length_pos v Hv) as Hlen.
  unfold Vector2Normalize, Vector2Length in *.
  destruct (ltb (of_int 0) (sqrtf (x v * x v + y v * y v)%S)) eqn:Hlt; [done|].
  apply ltb_R_false in Hlt. at_R. lra.
Qed.

Lemma Vector2Normalize_R_zero : Vector2Normalize (F:=R) Vector2Zero = Vector2Zero.
Proof.
  unfold Vector2Normalize, Vector2Zero. cbn [x y].
  destruct (ltb _ _) eqn:Hlt; [|done].
  apply ltb_R_true in Hlt. at_R.
  replace (0 * 0 + 0 * 0)%R with 0%R in Hlt by lra. rewrite sqrt_0 in Hlt. lra.
Qed.

(* A normalised vector is a unit vector, or the zero vector. *)
Lemma Vector2Normalize_unit (v : Vector2 R) :
  v <> Vector2Zero ->
  Vector2DotProduct (Vector2Normalize v) (Vector2Normalize v) = 1%R.
Proof.
  intros Hv. rewrite (Vector2Normalize_R v Hv).
  pose proof (Vector2Length_pos v Hv) as Hlen.
  pose proof (Vector2Length_sqr v) as Hsq.
  unfold Vector2DotProduct. cbn [x y]. at_R.
  set (len := Vector2Length v) in *.
  replace (x v * (1 / len) * (x v * (1 / len)) + y v * (1 / len) * (y v * (1 / len)))%R
    with ((x v * x v + y v * y v) / (len * len))%R by (field; lra).
  rewrite <- Hsq. field. lra.
Qed.

(** ** Gravity (C9) *)

(** C9.  In calculateGravitationalForce the force magnitude is divided by
    distance * distance, where distance is the length of the separation
    plus the constant 10, added unconditionally.  The length is
    nonnegative, so over the reals the divisor is at least 100 and is
    never zero, for every pair of balls. *)
Theorem gravity_divisor_at_least_100 (source target : Ball R) :
  calculateGravitationalForce source target =
    Vector2Scale
      (Vector2Normalize (Vector2Subtract (position target) (position source)))
      ((G * mass source * mass target) / gravityDivisor source target)%R /\
  gravityDistance source target =
    (Vector2Length (Vector2Subtract (position target) (position source)) + 10)%R /\
  (10 <= gravityDistance source target)%R /\
  (100 <= gravityDivisor source target)%R /\
  gravityDivisor source target <> 0%R.
Proof.
  pose proof (Vector2Length_nonneg
                (Vector2Subtract (position target) (position source))) as Hlen.
  assert (Hd : gravityDistance source target =
    (Vector2Length (Vector2Subtract (position target) (position source)) + 10)%R)
    by reflexivity.
  assert (H100 : (100 <= gravityDivisor source target)%R).
  { unfold gravityDivisor. rewrite Hd. at_R. nra. }
  split; [reflexivity|]. split; [exact Hd|].
  split; [rewrite Hd; lra|]. split; [exact H100 | lra].
Qed.

(** ** Collision resolution *)

Section ResolveShape.
Context {F : Type} `{Scalar F}.
Local Open Scope scalar_scope.

(* The positional correction writes positions only. *)
Lemma correctPositions_keeps (ball1 ball2 : Ball F) :
  let r := correctPositions ball1 ball2 in
  velocity r.1 = velocity ball1 /\ velocity r.2 = velocity ball2 /\
  mass r.1 = mass ball1 /\ mass r.2 = mass ball2 /\
  radius r.1 = radius ball1 /\ radius r.2 = radius ball2.
Proof. cbv zeta. unfold correctPositions. by destruct (_ <? _). Qed.

(* The impulse response writes velocities only. *)
Lemma applyImpulse_keeps (normal : Vector2 F) (relativeSpeed : F) (ball1 ball2 : Ball F) :
  let r := applyImpulse normal relativeSpeed ball1 ball2 in
  position r.1 = position ball1 /\ position r.2 = position ball2 /\
  mass r.1 = mass ball1 /\ mass r.2 = mass ball2 /\
  radius r.1 = radius ball1 /\ radius r.2 = radius ball2.
Proof. cbv zeta. unfold applyImpulse. by destruct (_ <? _). Qed.

Lemma resolveBallCollision_split (ball1 ball2 : Ball F) :
  resolveBallCollision ball1 ball2 =
    applyImpulse (collisionNormal ball1 ball2) (collisionRelativeSpeed ball1 ball2)
      (correctPositions ball1 ball2).1 (correctPositions ball1 ball2).2.
Proof. unfold resolveBallCollision. by destruct (correctPositions ball1 ball2). Qed.

(* The velocities after a call, in any arithmetic: the impulse uses the
   normal and relative speed taken before the positions move, and the
   masses, which the positional correction does not touch. *)
Lemma resolveBallCollision_velocity (ball1 ball2 : Ball F) :
  let normal := collisionNormal ball1 ball2 in
  let relativeSpeed := collisionRelativeSpeed ball1 ball2 in
  let impulse := (of_int 2 * relativeSpeed) / (mass ball1 + mass ball2) in
  let r := resolveBallCollision ball1 ball2 in
  (velocity r.1, velocity r.2) =
    if relativeSpeed <? of_int 0
    then (Vector2Add (velocity ball1) (Vector2Scale normal (impulse * mass ball2)),
          Vector2Subtract (velocity ball2) (Vector2Scale normal (impulse * mass ball1)))
    else (velocity ball1, velocity ball2).
Proof.
  cbv zeta. rewrite resolveBallCollision_split.
  destruct (correctPositions_keeps ball1 ball2) as (Hv1 & Hv2 & Hm1 & Hm2 & _).
  cbv zeta in *. unfold applyImpulse.
  destruct (_ <? _); cbn [fst snd velocity set_velocity];
    by rewrite Hv1, Hv2, ?Hm1, ?Hm2.
Qed.

(* The positions after a call are those the positional correction gives;
   mass and radius are never written. *)
Lemma resolveBallCollision_position (ball1 ball2 : Ball F) :
  let r := resolveBallCollision ball1 ball2 in
  position r.1 = position (correctPositions ball1 ball2).1 /\
  position r.2 = position (correctPositions ball1 ball2).2 /\
  mass r.1 = mass ball1 /\ mass r.2 = mass ball2 /\
  radius r.1 = radius ball1 /\ radius r.2 = radius ball2.
Proof.
  cbv zeta. rewrite resolveBallCollision_split.
  destruct (correctPositions_keeps ball1 ball2) as (_ & _ & Hm1 & Hm2 & Hr1 & Hr2).
  destruct (applyImpulse_keeps (collisionNormal ball1 ball2)
              (collisionRelativeSpeed ball1 ball2)
              (correctPositions ball1 ball2).1 (correctPositions ball1 ball2).2)
    as (Hp1 & Hp2 & Hm1' & Hm2' & Hr1' & Hr2').
  cbv zeta in *.
  by rewrite Hp1, Hp2, Hm1', Hm2', Hr1', Hr2', Hm1, Hm2, Hr1, Hr2.
Qed.
End ResolveShape.

(** C3.  Over the reals one call of resolveBallCollision leaves the total
    momentum m1 * v1 + m2 * v2 of the pair exactly as it was, and the two
    masses with it; this holds for every pair, colliding or not, whatever
    the masses. *)
Theorem resolveBallCollision_conserves_momentum (ball1 ball2 : Ball R) :
  totalMomentum (resolveBallCollision ball1 ball2).1
                (resolveBallCollision ball1 ball2).2
    = totalMomentum ball1 ball2 /\
  mass (resolveBallCollision ball1 ball2).1 = mass ball1 /\
  mass (resolveBallCollision ball1 ball2).2 = mass ball2.
Proof.
  destruct (resolveBallCollision_position ball1 ball2) as (_ & _ & Hm1 & Hm2 & _).
  pose proof (resolveBallCollision_velocity ball1 ball2) as Hv.
  cbv zeta in *. split; [|done].
  unfold totalMomentum. rewrite Hm1, Hm2.
  destruct (ltb _ _); injection Hv as -> ->; [|done].
  unfold_vec. at_R.
  generalize (2 * collisionRelativeSpeed ball1 ball2 / (mass ball1 + mass ball2))%R.
  intros impulse. f_equal; ring.
Qed.

Lemma Vector2_zero_dec (v : Vector2 R) : v = Vector2Zero \/ v <> Vector2Zero.
Proof.
  destruct v as [vx vy]. unfold Vector2Zero. at_R.
  destruct (Req_dec vx 0) as [->|Hx]; [|right; intros [= ? ?]; lra].
  destruct (Req_dec vy 0) as [->|Hy]; [by left|right; intros [= ?]; lra].
Qed.

(* Over the reals the program's normalisation is division by the length,
   at the zero vector too. *)
Lemma Vector2Normalize_unitDirection (p q : Vector2 R) :
  Vector2Normalize (Vector2Subtract q p) = unitDirection p q.
Proof.
  unfold unitDirection.
  destruct (Vector2_zero_dec (Vector2Subtract q p)) as [Hz|Hnz].
  - rewrite Hz, Vector2Normalize_R_zero.
    destruct p as [px py], q as [qx qy].
    unfold Vector2Subtract, Vector2Zero in *. cbn [x y] in *. at_R.
    injection Hz as Hx Hy. rewrite Hx, Hy. unfold Rdiv. f_equal; ring.
  - rewrite (Vector2Normalize_R _ Hnz).
    pose proof (Vector2Length_pos _ Hnz) as Hlen.
    unfold Vector2Length, Vector2Subtract in *. cbn [x y] in *. at_R.
    f_equal; field; lra.
Qed.

Lemma unit_scaled_nonzero (nx ny k : R) :
  (nx * nx + ny * ny = 1)%R -> k <> 0%R -> ~ (nx * k = 0 /\ ny * k = 0)%R.
Proof.
  intros Hunit Hk [Hx Hy].
  apply Rmult_integral in Hx, Hy.
  destruct Hx as [->|?], Hy as [->|?]; lra.
Qed.

(* Two balls that approach along the collision normal have distinct
   centres, so the normal is a unit vector. *)
Lemma approaching_unit_normal (ball1 ball2 : Ball R) :
  (collisionRelativeSpeed ball1 ball2 < 0)%R ->
  Vector2DotProduct (collisionNormal ball1 ball2) (collisionNormal ball1 ball2) = 1%R.
Proof.
  intros Hrs. unfold collisionRelativeSpeed, collisionNormal in *.
  destruct (Vector2_zero_dec (Vector2Subtract (position ball2) (position ball1)))
    as [Hz|Hnz]; [|by apply Vector2Normalize_unit].
  rewrite Hz, Vector2Normalize_R_zero in Hrs.
  unfold_vec. at_R. lra.
Qed.

(* The impulse response over the reals, in terms of the normal and the
   relative speed that resolveBallCollision computes. *)
Lemma impulse_response_R (ball1 ball2 : Ball R) :
  (0 < mass ball1)%R -> (0 < mass ball2)%R ->
  let normal := collisionNormal ball1 ball2 in
  let relativeSpeed := collisionRelativeSpeed ball1 ball2 in
  let impulse := (2 * relativeSpeed / (mass ball1 + mass ball2))%R in
  let ball1' := (resolveBallCollision ball1 ball2).1 in
  let ball2' := (resolveBallCollision ball1 ball2).2 in
  ((relativeSpeed < 0)%R ->
     velocity ball1' =
       Vector2Add (velocity ball1) (Vector2Scale normal (impulse * mass ball2)%R) /\
     velocity ball2' =
       Vector2Subtract (velocity ball2) (Vector2Scale normal (impulse * mass ball1)%R) /\
     velocity ball1' <> velocity ball1 /\
     velocity ball2' <> velocity ball2 /\
     speedAlong normal ball1' ball2' = (- relativeSpeed)%R /\
     (0 < speedAlong normal ball1' ball2')%R) /\
  (~ (relativeSpeed < 0)%R ->
     velocity ball1' = velocity ball1 /\ velocity ball2' = velocity ball2) /\
  ((velocity ball1' <> velocity ball1 \/ velocity ball2' <> velocity ball2)
   <-> (relativeSpeed < 0)%R).
Proof.
  intros Hm1 Hm2 normal relativeSpeed impulse ball1' ball2'.
  pose proof (resolveBallCollision_velocity ball1 ball2) as Hv.
  pose proof (approaching_unit_normal ball1 ball2) as Hunit.
  cbv zeta in Hv. fold normal relativeSpeed ball1' ball2' in Hv, Hunit.
  change (of_int 2 * relativeSpeed / (mass ball1 + mass ball2))%S with impulse in Hv.
  assert (Himp : (impulse * (mass ball1 + mass ball2) = 2 * relativeSpeed)%R)
    by (unfold impulse; field; lra).
  unfold speedAlong.
  destruct (ltb relativeSpeed (of_int 0)) eqn:Hlt; injection Hv as Hv1 Hv2.
  - apply ltb_R_true in Hlt. at_R. specialize (Hunit Hlt).
    assert (Hrs : relativeSpeed =
      Vector2DotProduct (Vector2Subtract (velocity ball2) (velocity ball1)) normal)
      by reflexivity.
    rewrite Hv1, Hv2. clearbody normal impulse relativeSpeed.
    destruct normal as [nx ny], (velocity ball1) as [v1x v1y],
      (velocity ball2) as [v2x v2y].
    unfold_vec. at_R.
    assert (Hi : (impulse < 0)%R) by nra.
    assert (Hk1 : (impulse * mass ball1 <> 0)%R) by nra.
    assert (Hk2 : (impulse * mass ball2 <> 0)%R) by nra.
    assert (Hne1 : mkVector2 (v1x + nx * (impulse * mass ball2))%R
                             (v1y + ny * (impulse * mass ball2))%R
                   <> mkVector2 v1x v1y).
    { intros [= Hx Hy]. apply (unit_scaled_nonzero nx ny _ Hunit Hk2). lra. }
    assert (Hne2 : mkVector2 (v2x - nx * (impulse * mass ball1))%R
                             (v2y - ny * (impulse * mass ball1))%R
                   <> mkVector2 v2x v2y).
    { intros [= Hx Hy]. apply (unit_scaled_nonzero nx ny _ Hunit Hk1). lra. }
    assert (Hafter :
      ((v2x - nx * (impulse * mass ball1) - (v1x + nx * (impulse * mass ball2))) * nx
       + (v2y - ny * (impulse * mass ball1) - (v1y + ny * (impulse * mass ball2))) * ny
       = - relativeSpeed)%R).
    { transitivity (relativeSpeed
                    - impulse * (mass ball1 + mass ball2) * (nx * nx + ny * ny))%R;
        [rewrite Hrs; ring | rewrite Hunit, Himp; ring]. }
    split; [|split; [intros; lra | split; [intros _; exact Hlt | by left]]].
    intros _. rewrite Hafter. repeat split; try done. lra.
  - apply ltb_R_false in Hlt. at_R. rewrite Hv1, Hv2.
    repeat split; try done; try lra. intros [Hne|Hne]; by destruct Hne.
Qed.

(** C6, as the code has it.  In any arithmetic, with normal =
    normalize(p2 - p1), relativeSpeed = (v2 - v1) . normal and impulse =
    2 * relativeSpeed / (m1 + m2): when relativeSpeed < 0 the resolver
    assigns v1 + normal * (impulse * m2) to ball 1 and
    v2 - normal * (impulse * m1) to ball 2, and otherwise it leaves both
    velocities as they are.  Over the reals, where the normal is
    (p2 - p1) / |p2 - p1|, and for positive masses: an approaching pair has
    both velocities changed, and afterwards its relative speed along the
    normal is the opposite of what it was, hence positive, so the balls
    part; the velocities are changed exactly when the pair approaches. *)
Theorem impulse_iff_approaching :
  (forall (F : Type) (ops : Scalar F) (ball1 ball2 : Ball F),
      let normal :=
        Vector2Normalize (Vector2Subtract (position ball2) (position ball1)) in
      let relativeSpeed :=
        Vector2DotProduct (Vector2Subtract (velocity ball2) (velocity ball1)) normal in
      let impulse :=
        div (mul (of_int 2) relativeSpeed) (add (mass ball1) (mass ball2)) in
      let ball1' := (resolveBallCollision ball1 ball2).1 in
      let ball2' := (resolveBallCollision ball1 ball2).2 in
      (ltb relativeSpeed (of_int 0) = true ->
         velocity ball1' =
           Vector2Add (velocity ball1) (Vector2Scale normal (mul impulse (mass ball2))) /\
         velocity ball2' =
           Vector2Subtract (velocity ball2)
                           (Vector2Scale normal (mul impulse (mass ball1)))) /\
      (ltb relativeSpeed (of_int 0) = false ->
         velocity ball1' = velocity ball1 /\ velocity ball2' = velocity ball2)) /\
  (forall ball1 ball2 : Ball R,
      (0 < mass ball1)%R -> (0 < mass ball2)%R ->
      let normal := unitDirection (position ball1) (position ball2) in
      let relativeSpeed :=
        ((x (velocity ball2) - x (velocity ball1)) * x normal
         + (y (velocity ball2) - y (velocity ball1)) * y normal)%R in
      let impulse := (2 * relativeSpeed / (mass ball1 + mass ball2))%R in
      let ball1' := (resolveBallCollision ball1 ball2).1 in
      let ball2' := (resolveBallCollision ball1 ball2).2 in
      ((relativeSpeed < 0)%R ->
         velocity ball1' =
           mkVector2 (x (velocity ball1) + x normal * (impulse * mass ball2))%R
                     (y (velocity ball1) + y normal * (impulse * mass ball2))%R /\
         velocity ball2' =
           mkVector2 (x (velocity ball2) - x normal * (impulse * mass ball1))%R
                     (y (velocity ball2) - y normal * (impulse * mass ball1))%R /\
         velocity ball1' <> velocity ball1 /\
         velocity ball2' <> velocity ball2 /\
         speedAlong normal ball1' ball2' = (- relativeSpeed)%R /\
         (0 < speedAlong normal ball1' ball2')%R) /\
      (~ (relativeSpeed < 0)%R ->
         velocity ball1' = velocity ball1 /\ velocity ball2' = velocity ball2) /\
      ((velocity ball1' <> velocity ball1 \/ velocity ball2' <> velocity ball2)
       <-> (relativeSpeed < 0)%R)).
Proof.
  split.
  - intros F ops ball1 ball2 normal relativeSpeed impulse ball1' ball2'.
    pose proof (resolveBallCollision_velocity ball1 ball2) as Hv.
    cbv zeta in Hv.
    change (collisionRelativeSpeed ball1 ball2) with relativeSpeed in Hv.
    change (collisionNormal ball1 ball2) with normal in Hv.
    fold impulse ball1' ball2' in Hv.
    split; intros Hlt; rewrite Hlt in Hv; by injection Hv.
  - intros ball1 ball2 Hm1 Hm2.
    pose proof (impulse_response_R ball1 ball2 Hm1 Hm2) as Hresp.
    cbv zeta in Hresp. unfold collisionRelativeSpeed, collisionNormal in Hresp.
    rewrite Vector2Normalize_unitDirection in Hresp.
    exact Hresp.
Qed.

Lemma impulse_iff_approaching_witness :
  let ball1 := movingBall (F:=R) 0 0 1 0 5 5 in
  let ball2 := movingBall (F:=R) 6 0 (-1) 0 5 5 in
  let normal := unitDirection (position ball1) (position ball2) in
  (velocity (resolveBallCollision ball1 ball2).1 <> velocity ball1 \/
   velocity (resolveBallCollision ball1 ball2).2 <> velocity ball2)
  <-> ((x (velocity ball2) - x (velocity ball1)) * x normal
       + (y (velocity ball2) - y (velocity ball1)) * y normal < 0)%R.
Proof.
  intros ball1 ball2 normal.
  destruct impulse_iff_approaching as (_ & Hreal).
  apply (Hreal ball1 ball2);
    subst ball1 ball2; cbn [movingBall mass of_int R_Scalar]; lra.
Defined.

(** C6 as worded fails in the arithmetic the program runs in.  Two
    overlapping balls of mass 5 approach each other very slowly along the
    line of centres: the relative speed computed is negative, about
    -4.5e-6, so the impulse branch is taken, yet the two terms it adds are
    below half a unit in the last place of the velocities near 70, and
    both balls come out with the velocities they had.  Nothing is
    modified, and the pair goes on approaching. *)
Lemma grazing_impulse_is_absorbed :
  let ball1 := grazingPair.1 in
  let ball2 := grazingPair.2 in
  let normal :=
    Vector2Normalize (Vector2Subtract (position ball2) (position ball1)) in
  let relativeSpeed :=
    Vector2DotProduct (Vector2Subtract (velocity ball2) (velocity ball1)) normal in
  checkBallCollision ball1 ball2 = true /\
  ltb relativeSpeed (of_int 0) = true /\
  velocity (resolveBallCollision ball1 ball2).1 = velocity ball1 /\
  velocity (resolveBallCollision ball1 ball2).2 = velocity ball2 /\
  speedAlong normal (resolveBallCollision ball1 ball2).1
                    (resolveBallCollision ball1 ball2).2 = relativeSpeed.
Proof.
  cbv zeta. repeat split; vm_compute; reflexivity.
Qed.

(** ** Positional correction (C5) *)

Lemma Vector2Distance_Length (v1 v2 : Vector2 R) :
  Vector2Distance v1 v2 = Vector2Length (Vector2Subtract v2 v1).
Proof.
  unfold Vector2Distance, Vector2Length, Vector2Subtract. cbn [x y]. at_R.
  f_equal. ring.
Qed.

Lemma sqrt_unique (u v : R) : (0 <= v)%R -> (v * v = u)%R -> sqrt u = v.
Proof. intros Hv <-. by apply sqrt_square. Qed.

Lemma Vector2Subtract_nonzero (v1 v2 : Vector2 R) :
  v1 <> v2 -> Vector2Subtract v2 v1 <> Vector2Zero.
Proof.
  intros Hne Hz. apply Hne. destruct v1 as [x1 y1], v2 as [x2 y2].
  unfold Vector2Subtract, Vector2Zero in Hz. cbn [x y] in Hz. at_R.
  injection Hz as Hx Hy. f_equal; lra.
Qed.

(* The algebra of the correction on one pair: the two displaced centres
   are exactly [len + overlap] apart, each having moved by its share. *)
Lemma correction_algebra (p1x p1y p2x p2y len overlap m1 m2 : R) :
  let dx := (p2x - p1x)%R in
  let dy := (p2y - p1y)%R in
  let nx := (dx * (1 / len))%R in
  let ny := (dy * (1 / len))%R in
  let s1 := (overlap * (m2 / (m1 + m2)))%R in
  let s2 := (overlap * (m1 / (m1 + m2)))%R in
  (len * len = dx * dx + dy * dy)%R -> (0 < len)%R ->
  (0 < m1)%R -> (0 < m2)%R ->
  ((p1x - nx * s1 - (p2x + nx * s2)) * (p1x - nx * s1 - (p2x + nx * s2))
   + (p1y - ny * s1 - (p2y + ny * s2)) * (p1y - ny * s1 - (p2y + ny * s2))
   = (len + overlap) * (len + overlap))%R /\
  ((p1x - nx * s1 - p1x) * (p1x - nx * s1 - p1x)
   + (p1y - ny * s1 - p1y) * (p1y - ny * s1 - p1y) = s1 * s1)%R /\
  ((p2x + nx * s2 - p2x) * (p2x + nx * s2 - p2x)
   + (p2y + ny * s2 - p2y) * (p2y + ny * s2 - p2y) = s2 * s2)%R.
Proof.
  intros dx dy nx ny s1 s2 Hsq Hlen Hm1 Hm2.
  assert (Hs : (s1 + s2 = overlap)%R) by (unfold s1, s2; field; lra).
  assert (Hn : (nx * nx + ny * ny = 1)%R).
  { unfold nx, ny.
    transitivity ((dx * dx + dy * dy) / (len * len))%R; [field; lra|].
    rewrite <- Hsq. field. lra. }
  assert (Hnd : (nx * len = dx /\ ny * len = dy)%R)
    by (unfold nx, ny; split; field; lra).
  destruct Hnd as [Hdx Hdy].
  clearbody s1 s2 nx ny. split; [|split].
  - transitivity ((len + (s1 + s2)) * (len + (s1 + s2)) * (nx * nx + ny * ny))%R;
      [|rewrite Hn, Hs; ring].
    unfold dx, dy in *. 
    replace p2x with (p1x + nx * len)%R by lra.
    replace p2y with (p1y + ny * len)%R by lra. ring.
  - transitivity (s1 * s1 * (nx * nx + ny * ny))%R; [ring | rewrite Hn; ring].
  - transitivity (s2 * s2 * (nx * nx + ny * ny))%R; [ring | rewrite Hn; ring].
Qed.

(* The correction of a pair with distinct centres, over the reals, in terms
   of the test and the direction that resolveBallCollision computes. *)
Lemma correction_separates_R (ball1 ball2 : Ball R) :
  (0 < mass ball1)%R -> (0 < mass ball2)%R ->
  checkBallCollision ball1 ball2 = true ->
  position ball1 <> position ball2 ->
  let direction :=
    Vector2Normalize (Vector2Subtract (position ball2) (position ball1)) in
  let overlap := overlapOf ball1 ball2 in
  let share1 := (overlap * (mass ball2 / (mass ball1 + mass ball2)))%R in
  let share2 := (overlap * (mass ball1 / (mass ball1 + mass ball2)))%R in
  let ball1' := (correctPositions ball1 ball2).1 in
  let ball2' := (correctPositions ball1 ball2).2 in
  (0 < overlap)%R /\
  position ball1' = Vector2Subtract (position ball1) (Vector2Scale direction share1) /\
  position ball2' = Vector2Add (position ball2) (Vector2Scale direction share2) /\
  Vector2Distance (position ball1') (position ball1) = share1 /\
  Vector2Distance (position ball2') (position ball2) = share2 /\
  ((mass ball2 <= mass ball1)%R -> (share1 <= share2)%R) /\
  overlapOf ball1' ball2' = 0%R /\
  (overlapOf ball1' ball2' < overlap)%R /\
  checkBallCollision ball1' ball2' = false /\
  correctPositions ball1' ball2' = (ball1', ball2').
Proof.
  intros Hm1 Hm2 Hcheck Hne direction overlap share1 share2 ball1' ball2'.
  pose proof (Vector2Subtract_nonzero _ _ Hne) as Hd.
  pose proof (Vector2Length_pos _ Hd) as Hlen.
  pose proof (Vector2Length_sqr (Vector2Subtract (position ball2) (position ball1)))
    as Hsq.
  pose proof (Vector2Distance_Length (position ball1) (position ball2)) as Hdist.
  assert (Hlt : (Vector2Distance (position ball1) (position ball2)
                 < radius ball1 + radius ball2)%R) by (by apply ltb_R_true).
  assert (Ho : (0 < overlap)%R) by (unfold overlap, overlapOf; at_R; lra).
  assert (Hp1 : position ball1' =
    Vector2Subtract (position ball1) (Vector2Scale direction share1)).
  { unfold ball1', correctPositions. unfold checkBallCollision in Hcheck.
    rewrite Hcheck. cbn [fst position set_position].
    unfold share1, overlap, overlapOf. by rewrite Hdist. }
  assert (Hp2 : position ball2' =
    Vector2Add (position ball2) (Vector2Scale direction share2)).
  { unfold ball2', correctPositions. unfold checkBallCollision in Hcheck.
    rewrite Hcheck. cbn [snd position set_position].
    unfold share2, overlap, overlapOf. by rewrite Hdist. }
  destruct (correctPositions_keeps ball1 ball2) as (_ & _ & _ & _ & Hr1 & Hr2).
  cbv zeta in Hr1, Hr2. fold ball1' ball2' in Hr1, Hr2.
  assert (Hsum : (Vector2Length (Vector2Subtract (position ball2) (position ball1))
                  + overlap = radius ball1 + radius ball2)%R).
  { unfold overlap, overlapOf. rewrite Hdist. at_R. lra. }
  assert (Hgeom :
    Vector2Distance (position ball1') (position ball2')
      = (radius ball1 + radius ball2)%R /\
    Vector2Distance (position ball1') (position ball1) = share1 /\
    Vector2Distance (position ball2') (position ball2) = share2).
  { rewrite Hp1, Hp2. unfold direction.
    rewrite (Vector2Normalize_R _ Hd). rewrite <- Hsum.
    assert (Hs1 : (0 <= share1)%R).
    { unfold share1. apply Rmult_le_pos; [lra|].
      apply Rlt_le, Rdiv_lt_0_compat; lra. }
    assert (Hs2 : (0 <= share2)%R).
    { unfold share2. apply Rmult_le_pos; [lra|].
      apply Rlt_le, Rdiv_lt_0_compat; lra. }
    clearbody overlap. 
    set (len := Vector2Length _) in *. clearbody len.
    destruct (position ball1) as [p1x p1y], (position ball2) as [p2x p2y].
    unfold Vector2Subtract in Hsq. cbn [x y] in Hsq. at_R.
    destruct (correction_algebra p1x p1y p2x p2y len overlap
                (mass ball1) (mass ball2) Hsq Hlen Hm1 Hm2) as (Ha & Hb & Hc).
    unfold Vector2Distance, Vector2Subtract, Vector2Add, Vector2Scale.
    cbn [x y]. at_R. fold share1 share2 in Ha, Hb, Hc |- *.
    split; [|split]; apply sqrt_unique; (lra || done). }
  destruct Hgeom as (Hnew & Hmove1 & Hmove2).
  assert (Hzero : overlapOf ball1' ball2' = 0%R).
  { unfold overlapOf. rewrite Hnew, Hr1, Hr2. at_R. lra. }
  assert (Hclear : checkBallCollision ball1' ball2' = false).
  { unfold checkBallCollision. apply ltb_R_false. rewrite Hnew, Hr1, Hr2. at_R. lra. }
  repeat split; try done.
  - intros Hheavy. unfold share1, share2.
    apply Rmult_le_compat_l; [lra|].
    apply Rmult_le_compat_r; [|done].
    apply Rlt_le, Rinv_0_lt_compat. lra.
  - rewrite Hzero. done.
  - unfold correctPositions. unfold checkBallCollision in Hclear. by rewrite Hclear.
Qed.

Lemma resolveRepeatedly_S {F} `{Scalar F} (n : nat) (ball1 ball2 : Ball F) :
  resolveRepeatedly (S n) ball1 ball2 =
    resolveBallCollision (resolveRepeatedly n ball1 ball2).1
                         (resolveRepeatedly n ball1 ball2).2.
Proof. reflexivity. Qed.

(* Two balls at the same spot: the normalised direction is the zero
   vector, so the correction moves nothing. *)
Lemma coincident_correct_R (ball1 ball2 : Ball R) :
  position ball1 = position ball2 -> correctPositions ball1 ball2 = (ball1, ball2).
Proof.
  intros Hp. unfold correctPositions.
  destruct (ltb _ _); [|done].
  rewrite Hp.
  assert (Hz : Vector2Subtract (position ball2) (position ball2)
               = Vector2Zero (F:=R)) by vec_eq.
  rewrite Hz, Vector2Normalize_R_zero. rewrite <- Hp.
  destruct ball1 as [[p1x p1y] v1 a1 r1 m1 c1], ball2 as [[p2x p2y] v2 a2 r2 m2 c2].
  cbn [position] in Hp. injection Hp as -> ->.
  unfold set_position. cbn [position velocity acceleration radius mass color].
  unfold_vec. at_R. f_equal; f_equal; f_equal; ring.
Qed.

(* Two balls at rest exchange no impulse: a call is the correction alone. *)
Lemma resolve_at_rest_R (ball1 ball2 : Ball R) :
  velocity ball1 = Vector2Zero -> velocity ball2 = Vector2Zero ->
  resolveBallCollision ball1 ball2 = correctPositions ball1 ball2.
Proof.
  intros Hv1 Hv2. rewrite resolveBallCollision_split.
  assert (Hrs : collisionRelativeSpeed ball1 ball2 = 0%R).
  { unfold collisionRelativeSpeed. rewrite Hv1, Hv2.
    generalize (collisionNormal ball1 ball2). intros [nx ny].
    unfold_vec. at_R. ring. }
  rewrite Hrs. unfold applyImpulse.
  destruct (ltb 0%R (of_int 0)) eqn:Hlt; [apply ltb_R_true in Hlt; at_R; lra|].
  by destruct (correctPositions ball1 ball2).
Qed.

(** C5, as the code has it.  Over the reals, for two overlapping balls of
    positive mass whose centres are distinct: the correction computes
    overlap = (r1 + r2) - distance and moves ball 1 against and ball 2
    along the unit vector from centre 1 to centre 2; ball 1 moves by
    overlap * m2 / (m1 + m2) and ball 2 by overlap * m1 / (m1 + m2), so the
    heavier ball moves less; afterwards the centres are r1 + r2 apart, and
    for balls at rest every further call finds the overlap at 0 and changes
    nothing: the overlap decreases strictly at each call for as long as it
    is positive, which is once.  For two balls whose centres coincide the
    correction moves nothing, and however often it is called on balls at
    rest the overlap stays r1 + r2. *)
Theorem correctPositions_separates :
  (forall ball1 ball2 : Ball R,
      (0 < mass ball1)%R -> (0 < mass ball2)%R ->
      (0 < overlapOf ball1 ball2)%R ->
      position ball1 <> position ball2 ->
      let direction := unitDirection (position ball1) (position ball2) in
      let overlap := overlapOf ball1 ball2 in
      let share1 := (overlap * (mass ball2 / (mass ball1 + mass ball2)))%R in
      let share2 := (overlap * (mass ball1 / (mass ball1 + mass ball2)))%R in
      let ball1' := (correctPositions ball1 ball2).1 in
      let ball2' := (correctPositions ball1 ball2).2 in
      position ball1' = Vector2Subtract (position ball1) (Vector2Scale direction share1) /\
      position ball2' = Vector2Add (position ball2) (Vector2Scale direction share2) /\
      Vector2Distance (position ball1') (position ball1) = share1 /\
      Vector2Distance (position ball2') (position ball2) = share2 /\
      ((mass ball2 <= mass ball1)%R -> (share1 <= share2)%R) /\
      overlapOf ball1' ball2' = 0%R /\
      (overlapOf ball1' ball2' < overlap)%R /\
      checkBallCollision ball1' ball2' = false /\
      correctPositions ball1' ball2' = (ball1', ball2') /\
      (velocity ball1 = Vector2Zero -> velocity ball2 = Vector2Zero ->
       forall n : nat,
         let before := resolveRepeatedly n ball1 ball2 in
         let after := resolveRepeatedly (S n) ball1 ball2 in
         ((0 < overlapOf before.1 before.2)%R ->
          (overlapOf after.1 after.2 < overlapOf before.1 before.2)%R) /\
         overlapOf after.1 after.2 = 0%R)) /\
  (forall ball1 ball2 : Ball R,
      position ball1 = position ball2 ->
      correctPositions ball1 ball2 = (ball1, ball2) /\
      overlapOf ball1 ball2 = (radius ball1 + radius ball2)%R /\
      (velocity ball1 = Vector2Zero -> velocity ball2 = Vector2Zero ->
       forall n : nat, resolveRepeatedly n ball1 ball2 = (ball1, ball2))).
Proof.
  split.
  - intros ball1 ball2 Hm1 Hm2 Hover Hne.
    assert (Hcheck : checkBallCollision ball1 ball2 = true).
    { apply ltb_R_true. unfold overlapOf in Hover. at_R. lra. }
    pose proof (correction_separates_R ball1 ball2 Hm1 Hm2 Hcheck Hne) as Hsep.
    cbv zeta in Hsep. rewrite Vector2Normalize_unitDirection in Hsep.
    destruct Hsep as (_ & Hp1 & Hp2 & Hd1 & Hd2 & Hheavy & Hzero & Hless & Hclear & Hfix).
    cbv zeta.
    split; [exact Hp1|]. split; [exact Hp2|]. split; [exact Hd1|].
    split; [exact Hd2|]. split; [exact Hheavy|]. split; [exact Hzero|].
    split; [exact Hless|]. split; [exact Hclear|]. split; [exact Hfix|].
    intros Hv1 Hv2.
    destruct (correctPositions_keeps ball1 ball2) as (Hk1 & Hk2 & _).
    cbv zeta in Hk1, Hk2.
    assert (Hiter : forall n, resolveRepeatedly (S n) ball1 ball2
                              = correctPositions ball1 ball2).
    { induction n as [|n IH].
      - rewrite resolveRepeatedly_S. by apply resolve_at_rest_R.
      - rewrite resolveRepeatedly_S, IH.
        rewrite resolve_at_rest_R by (by rewrite ?Hk1, ?Hk2).
        rewrite Hfix. by destruct (correctPositions ball1 ball2). }
    intros n. rewrite Hiter. split; [|exact Hzero].
    destruct n as [|n]; [intros _; exact Hless|].
    rewrite Hiter, Hzero. intros Habs. lra.
  - intros ball1 ball2 Hp.
    pose proof (coincident_correct_R ball1 ball2 Hp) as Hsame.
    split; [exact Hsame|]. split.
    + unfold overlapOf. rewrite Hp, Vector2Distance_Length.
      assert (Hz : Vector2Subtract (position ball2) (position ball2)
                   = Vector2Zero (F:=R)) by vec_eq.
      rewrite Hz. unfold Vector2Length, Vector2Zero. cbn [x y]. at_R.
      rewrite (sqrt_unique _ 0); lra.
    + intros Hv1 Hv2. induction n as [|n IH]; [done|].
      rewrite resolveRepeatedly_S, IH. cbn [fst snd].
      by rewrite resolve_at_rest_R.
Qed.

Lemma correctPositions_separates_witness :
  overlapOf (correctPositions (restingBall (F:=R) 0 0 5 5) (restingBall 6 0 5 5)).1
            (correctPositions (restingBall (F:=R) 0 0 5 5) (restingBall 6 0 5 5)).2
  = 0%R.
Proof.
  destruct correctPositions_separates as (Hdistinct & _).
  apply (Hdistinct (restingBall 0 0 5 5) (restingBall 6 0 5 5)).
  - cbn [restingBall mass of_int R_Scalar]. lra.
  - cbn [restingBall mass of_int R_Scalar]. lra.
  - unfold overlapOf, Vector2Distance.
    cbn [restingBall position radius x y of_int R_Scalar add sub mul sqrtf].
    rewrite (sqrt_unique _ 6); lra.
  - cbn [restingBall position of_int R_Scalar]. intros [= Hx]. lra.
Defined.

(** C5 as worded fails in two ways.  When the two centres coincide the
    normalised direction between them is the zero vector: two balls of
    radius 5 at rest on the same spot overlap by 10, and one call, and any
    number of calls, leaves both where they are, over the reals and in
    single precision.  And in single precision the overlap of a pair with
    distinct centres need not reach 0: for balls of mass 5 and 15 at
    (100, 100) and (103, 107) the first two calls bring the overlap down to
    2^-20, and from then on a call changes nothing; the pair is still
    detected as colliding and the overlap neither decreases nor reaches
    0. *)
Lemma overlap_can_persist :
  (let ball := restingBall (F:=R) 100 100 5 5 in
   checkBallCollision ball ball = true /\
   overlapOf ball ball = 10%R /\
   forall n, resolveRepeatedly n ball ball = (ball, ball)) /\
  (let ball := restingBall (F:=binary32) 100 100 5 5 in
   checkBallCollision ball ball = true /\
   overlapOf ball ball = of_int 10 /\
   correctPositions ball ball = (ball, ball) /\
   forall n, resolveRepeatedly n ball ball = (ball, ball)) /\
  (let ball1 := (skewPair (F:=binary32)).1 in
   let ball2 := (skewPair (F:=binary32)).2 in
   let stuck := resolveRepeatedly 2 ball1 ball2 in
   position ball1 <> position ball2 /\
   checkBallCollision ball1 ball2 = true /\
   (forall n, resolveRepeatedly (2 + n) ball1 ball2 = stuck) /\
   checkBallCollision stuck.1 stuck.2 = true /\
   ltb (of_int 0) (overlapOf stuck.1 stuck.2) = true /\
   overlapOf stuck.1 stuck.2 = div (of_int 1) (of_int 1048576)).
Proof.
  split; [|split]; cbv zeta.
  - assert (Hdist : Vector2Distance (position (restingBall (F:=R) 100 100 5 5))
                      (position (restingBall (F:=R) 100 100 5 5)) = 0%R).
    { unfold Vector2Distance. cbn [restingBall position x y]. at_R.
      apply sqrt_unique; lra. }
    split; [|split].
    + apply ltb_R_true. rewrite Hdist.
      cbn [restingBall radius of_int R_Scalar add]. lra.
    + unfold overlapOf. rewrite Hdist.
      cbn [restingBall radius of_int R_Scalar add sub]. lra.
    + induction n as [|n IH]; [done|].
      rewrite resolveRepeatedly_S, IH. cbn [fst snd].
      rewrite resolve_at_rest_R by reflexivity.
      by apply coincident_correct_R.
  - split; [vm_compute; reflexivity|].
    split; [vm_compute; reflexivity|].
    split; [vm_compute; reflexivity|].
    induction n as [|n IH]; [done|].
    rewrite resolveRepeatedly_S, IH. cbn [fst snd].
    vm_compute. reflexivity.
  - split; [vm_compute; discriminate|].
    split; [vm_compute; reflexivity|].
    split.
    { induction n as [|n IH]; [reflexivity|].
      change (2 + S n) with (S (2 + n)).
      rewrite resolveRepeatedly_S, IH. vm_compute. reflexivity. }
    split; [vm_compute; reflexivity|].
    split; vm_compute; reflexivity.
Qed.

(** ** The collision pass (C8) *)

Lemma fold_left_inv_ext {A B : Type} (P : A -> Prop) (f g : A -> B -> A)
    (l : list B) (s : A) :
  P s ->
  (forall s b, P s -> f s b = g s b) ->
  (forall s b, P s -> P (g s b)) ->
  fold_left f l s = fold_left g l s /\ P (fold_left g l s).
Proof.
  intros Hs Hfg Hg. revert s Hs.
  induction l as [|b l IH]; intros s Hs; [done|].
  cbn [fold_left]. rewrite Hfg by done. apply IH. by apply Hg.
Qed.

Lemma fold_left_flat_map {A B C : Type} (f : A -> C -> A) (g : B -> list C)
    (l : list B) (s : A) :
  fold_left f (flat_map g l) s = fold_left (fun s b => fold_left f (g b) s) l s.
Proof.
  revert s. induction l as [|b l IH]; intros s; [done|].
  cbn [flat_map fold_left]. by rewrite fold_left_app, IH.
Qed.

Lemma fold_left_map_list {A B C : Type} (f : A -> C -> A) (h : B -> C)
    (l : list B) (s : A) :
  fold_left f (map h l) s = fold_left (fun s b => f s (h b)) l s.
Proof. revert s. induction l as [|b l IH]; intros s; [done|]. apply IH. Qed.

Lemma index_pairs_In (n i j : nat) : In (i, j) (index_pairs n) <-> i < j < n.
Proof.
  unfold index_pairs. rewrite in_flat_map. split.
  - intros (i' & Hi' & Hin). apply in_map_iff in Hin as (j' & [= -> ->] & Hj').
    apply in_seq in Hi', Hj'. lia.
  - intros Hij. exists i. split; [apply in_seq; lia|].
    apply in_map_iff. exists j. split; [done|]. apply in_seq. lia.
Qed.

Lemma seq_StronglySorted (lo len : nat) : StronglySorted lt (seq lo len).
Proof.
  revert lo. induction len as [|len IH]; intros lo; [constructor|].
  cbn [seq]. constructor; [apply IH|].
  apply Forall_forall. intros k Hk. apply list_elem_of_In, in_seq in Hk. lia.
Qed.

Lemma index_rows_sorted (n lo len : nat) :
  StronglySorted pair_before
    (flat_map (fun i => map (fun j => (i, j)) (seq (i + 1) (n - (i + 1))))
              (seq lo len)).
Proof.
  revert lo. induction len as [|len IH]; intros lo; [constructor|].
  cbn [seq flat_map]. apply StronglySorted_app_2; [| |apply IH].
  - intros p q Hp Hq. apply list_elem_of_In in Hp, Hq.
    apply in_map_iff in Hp as (j & <- & Hj).
    apply in_flat_map in Hq as (i' & Hi' & Hq).
    apply in_map_iff in Hq as (j' & <- & Hj').
    apply in_seq in Hi'. left. cbn [fst]. lia.
  - apply (StronglySorted_fmap _ lt); [|apply seq_StronglySorted].
    intros j j' Hjj. right. cbn [fst snd]. lia.
Qed.

Section Pass.
Context {F : Type} `{Scalar F}.

Lemma collidePair_length (i j : nat) (balls : list (Ball F)) :
  length (collidePair i j balls) = length balls.
Proof.
  unfold collidePair.
  destruct (balls !! i) as [ball1|]; [|done].
  destruct (balls !! j) as [ball2|]; [|done].
  destruct (checkBallCollision ball1 ball2); [|done].
  destruct (resolveBallCollision ball1 ball2). by rewrite !length_insert.
Qed.

(* The two inner loops of handleCollisions are one pass over the pairs. *)
Lemma inner_loops_pass (balls : list (Ball F)) :
  for_loop 0 (length balls) (fun i balls =>
    for_loop (i + 1) (length balls) (fun j balls => collidePair i j balls) balls)
    balls
  = collision_pass balls.
Proof.
  unfold collision_pass, index_pairs, for_loop.
  rewrite fold_left_flat_map. rewrite Nat.sub_0_r.
  apply (fold_left_inv_ext (fun bs => length bs = length balls)); [done| |].
  - intros bs i Hbs. rewrite Hbs. by rewrite fold_left_map_list.
  - intros bs i Hbs. rewrite fold_left_map_list.
    generalize (seq (i + 1) (length balls - (i + 1))). intros js.
    revert bs Hbs. induction js as [|j js IH]; intros bs Hbs; [done|].
    cbn [fold_left]. apply IH. cbn [fst snd]. by rewrite collidePair_length.
Qed.

Lemma handleCollisions_passes (balls : list (Ball F)) :
  handleCollisions balls = Nat.iter 10 collision_pass balls.
Proof.
  unfold handleCollisions.
  rewrite (for_loop_ext 0 maxIterations _ (fun _ balls => collision_pass balls))
    by (intros; apply inner_loops_pass).
  reflexivity.
Qed.
End Pass.

(** C8.  Detection: two balls collide exactly when the Euclidean distance
    between their centres is strictly less than the sum of their radii.
    Resolution: handleCollisions is ten passes in a row, no more and no
    fewer, whatever the balls do; a pass meets the index pairs (i, j) with
    i < j below the number of balls, each once, in increasing order of i
    and then of j, and at each pair calls resolveBallCollision when, and
    only when, checkBallCollision holds of the two balls as they then
    are. *)
Theorem collisions_detected_and_resolved_in_order :
  (forall ball1 ball2 : Ball R,
      checkBallCollision ball1 ball2 = true <->
      (sqrt ((x (position ball1) - x (position ball2))
               * (x (position ball1) - x (position ball2))
             + (y (position ball1) - y (position ball2))
               * (y (position ball1) - y (position ball2)))
       < radius ball1 + radius ball2)%R) /\
  (forall (F : Type) (ops : Scalar F) (balls : list (Ball F)),
      handleCollisions balls = Nat.iter 10 collision_pass balls) /\
  (forall n i j : nat, In (i, j) (index_pairs n) <-> i < j < n) /\
  (forall n : nat, StronglySorted pair_before (index_pairs n)) /\
  (forall (F : Type) (ops : Scalar F) (balls : list (Ball F)) (i j : nat)
          (ball1 ball2 : Ball F),
      balls !! i = Some ball1 -> balls !! j = Some ball2 ->
      collidePair i j balls =
        if checkBallCollision ball1 ball2
        then <[j := (resolveBallCollision ball1 ball2).2]>
               (<[i := (resolveBallCollision ball1 ball2).1]> balls)
        else balls).
Proof.
  split; [|split; [|split; [|split]]].
  - intros ball1 ball2. unfold checkBallCollision. apply ltb_R_true.
  - intros F ops balls. apply handleCollisions_passes.
  - apply index_pairs_In.
  - intros n. apply index_rows_sorted.
  - intros F ops balls i j ball1 ball2 Hi Hj. unfold collidePair.
    rewrite Hi, Hj. by destruct (resolveBallCollision ball1 ball2).
Qed.

Lemma collisions_detected_and_resolved_in_order_witness :
  handleCollisions (twoBalls (F:=binary32)) = Nat.iter 10 collision_pass twoBalls /\
  In (0, 1) (index_pairs 2).
Proof.
  destruct collisions_detected_and_resolved_in_order as (_ & Hpass & Hin & _).
  split; [apply Hpass|]. apply Hin. lia.
Defined.

(** ** Force accumulation (C2) *)

Section Accumulation.
Context {F : Type} `{Scalar F}.

(* Past index i the inner loop adds every ball it meets. *)
Lemma accumulate_past (ball : Ball F) (i j : nat) (rest : list (Ball F))
    (k : KahanVector2Sum F) :
  i < j ->
  accumulate ball i j rest k = fold_left Add (map (contribution ball) rest) k.
Proof.
  revert j k. induction rest as [|other rest IH]; intros j k Hij; [done|].
  cbn [accumulate map fold_left].
  destruct (Nat.eqb_spec j i) as [->|_]; [lia|]. apply IH. lia.
Qed.

(* Up to index i it adds every ball but the one at index i. *)
Lemma accumulate_upto (ball : Ball F) (i j : nat) (rest : list (Ball F))
    (k : KahanVector2Sum F) :
  j <= i ->
  accumulate ball i j rest k =
    fold_left Add (map (contribution ball) (others (i - j) rest)) k.
Proof.
  revert j k. induction rest as [|other rest IH]; intros j k Hij.
  - unfold others. by rewrite take_nil, drop_nil.
  - cbn [accumulate]. destruct (Nat.eqb_spec j i) as [->|Hne].
    + rewrite Nat.sub_diag. unfold others. cbn [take drop app].
      rewrite drop_0. apply accumulate_past. lia.
    + rewrite IH by lia. unfold others.
      replace (i - j) with (Datatypes.S (i - Datatypes.S j)) by lia.
      reflexivity.
Qed.

Lemma integrate_acceleration (dt : F) (balls : list (Ball F)) (i : nat)
    (ball : Ball F) :
  acceleration (integrate dt balls i ball)
  = kahanSum (map (contribution ball) (others i balls)).
Proof.
  unfold integrate. cbn [acceleration set_position set_velocity set_acceleration].
  rewrite accumulate_upto by lia. rewrite Nat.sub_0_r. reflexivity.
Qed.

Lemma integrate_keeps (dt : F) (balls : list (Ball F)) (i : nat) (ball : Ball F) :
  radius (integrate dt balls i ball) = radius ball /\
  mass (integrate dt balls i ball) = mass ball /\
  color (integrate dt balls i ball) = color ball.
Proof. done. Qed.

(* The program's accumulator computes what the algorithm of the
   specification computes, coordinate by coordinate. *)
Lemma kahanSum_spec (values : list (Vector2 F)) :
  kahanSum values = spec_kahan_sum values.
Proof.
  unfold kahanSum, spec_kahan_sum, spec_kahan, GetSum.
  destruct (fold_Add_spec values KahanVector2Sum_new) as [Hx Hy].
  cbn in Hx, Hy. rewrite Hx, Hy. cbn [fst]. symmetry. apply Vector2_eta.
Qed.

(* The body of the loop for index i, run on the vector [view], stores at
   index i the wrapped result of the step of ball i against [view]. *)
Lemma updateBall_lookup (dt : F) (view : list (Ball F)) (i : nat) (ball : Ball F) :
  view !! i = Some ball ->
  updateBall false dt i view !! i = Some (wrapBounds (integrate dt view i ball)).
Proof.
  intros Hi. unfold updateBall. rewrite Hi. cbn [negb].
  apply list_lookup_insert_eq. by eapply lookup_lt_Some.
Qed.
End Accumulation.

(* The length of a unit vector scaled by a magnitude that is not negative
   is that magnitude. *)
Lemma scaled_unit_length (nx ny k : R) :
  (nx * nx + ny * ny = 1)%R -> (0 <= k)%R ->
  sqrt (nx * k * (nx * k) + ny * k * (ny * k)) = k.
Proof.
  intros Hunit Hk. apply sqrt_unique; [done|].
  transitivity (k * k * (nx * nx + ny * ny))%R; [rewrite Hunit|]; ring.
Qed.

(** C2, as the code has it.  Whatever vector the loop body reads when it
    handles ball i outside a drag, the acceleration it stores in that ball
    is the compensated sum, by the algorithm of the specification, over
    every ball of that vector but the one at index i, of force / own mass,
    where force = normalize(p_j - p_i) * (G * m_i * m_j /
    (|p_j - p_i| + 10)^2) with G = 1000; the bounds tests that follow leave
    it alone, and over the reals it is the plain sum.  Over the reals, and
    for masses that are not negative, the force has the magnitude
    G * m_i * m_j / (|p_j - p_i| + 10)^2 when the two positions differ, and
    is the zero vector when they coincide.  In a world of one ball the
    acceleration is exactly (0, 0), in any arithmetic. *)
Theorem acceleration_is_compensated_force_sum :
  (forall (F : Type) (ops : Scalar F) (dt : F) (view : list (Ball F)) (i : nat)
          (ball : Ball F),
      view !! i = Some ball ->
      (forall other, calculateGravitationalForce ball other = spec_force ball other) /\
      exists ball',
        updateBall false dt i view !! i = Some ball' /\
        acceleration ball' =
          spec_kahan_sum
            (map (fun other =>
                    Vector2Scale (spec_force ball other) (div (of_int 1) (mass ball)))
                 (take i view ++ drop (S i) view))) /\
  (forall (dt : R) (view : list (Ball R)) (i : nat) (ball : Ball R),
      view !! i = Some ball ->
      exists ball',
        updateBall false dt i view !! i = Some ball' /\
        acceleration ball' =
          vector_sum
            (map (fun other => Vector2Scale (spec_force ball other) (1 / mass ball)%R)
                 (take i view ++ drop (S i) view))) /\
  (forall source target : Ball R,
      let dist := sqrt ((x (position target) - x (position source))
                          * (x (position target) - x (position source))
                        + (y (position target) - y (position source))
                          * (y (position target) - y (position source))) in
      let magnitude := spec_magnitude (mass source) (mass target) dist in
      calculateGravitationalForce source target =
        Vector2Scale (unitDirection (position source) (position target)) magnitude /\
      ((0 <= mass source)%R -> (0 <= mass target)%R ->
       position source <> position target ->
       Vector2Length (calculateGravitationalForce source target) = magnitude) /\
      (position source = position target ->
       calculateGravitationalForce source target = Vector2Zero)) /\
  (forall (F : Type) (ops : Scalar F) (dt : F) (ball : Ball F),
      exists ball',
        updateBalls false dt [ball] = [ball'] /\ acceleration ball' = Vector2Zero).
Proof.
  split; [|split; [|split]].
  - intros F ops dt view i ball Hi. split; [done|].
    exists (wrapBounds (integrate dt view i ball)).
    split; [by apply updateBall_lookup|].
    destruct (wrapBounds_keeps (integrate dt view i ball)) as (_ & -> & _).
    rewrite integrate_acceleration, kahanSum_spec. reflexivity.
  - intros dt view i ball Hi.
    exists (wrapBounds (integrate dt view i ball)).
    split; [by apply updateBall_lookup|].
    destruct (wrapBounds_keeps (integrate dt view i ball)) as (_ & -> & _).
    rewrite integrate_acceleration, kahanSum_exact. reflexivity.
  - intros source target dist magnitude.
    assert (Hforce : calculateGravitationalForce source target =
      Vector2Scale (unitDirection (position source) (position target)) magnitude).
    { unfold calculateGravitationalForce.
      by rewrite Vector2Normalize_unitDirection. }
    split; [exact Hforce|]. split.
    + intros Hm1 Hm2 Hne. rewrite Hforce.
      pose proof (Vector2Subtract_nonzero _ _ Hne) as Hnz.
      pose proof (Vector2Normalize_unit _ Hnz) as Hunit.
      rewrite Vector2Normalize_unitDirection in Hunit.
      assert (Hmag : (0 <= magnitude)%R).
      { unfold magnitude, spec_magnitude. at_R.
        pose proof (sqrt_pos ((x (position target) - x (position source))
                          * (x (position target) - x (position source))
                        + (y (position target) - y (position source))
                          * (y (position target) - y (position source)))) as Hd.
        fold dist in Hd. apply Rmult_le_pos; [nra|].
        apply Rlt_le, Rinv_0_lt_compat. nra. }
      revert Hunit. generalize (unitDirection (position source) (position target)).
      intros [nx ny] Hunit. clearbody magnitude.
      unfold Vector2Length, Vector2Scale, Vector2DotProduct in *.
      cbn [x y] in *. at_R. by apply scaled_unit_length.
    + intros Hsame. unfold calculateGravitationalForce. rewrite Hsame.
      assert (Hz : Vector2Subtract (position target) (position target)
                   = Vector2Zero (F:=R)) by vec_eq.
      rewrite Hz, Vector2Normalize_R_zero. vec_eq.
  - intros F ops dt ball.
    exists (wrapBounds (integrate dt [ball] 0 ball)). split; [reflexivity|].
    destruct (wrapBounds_keeps (integrate dt [ball] 0 ball)) as (_ & -> & _).
    reflexivity.
Qed.

Lemma acceleration_is_compensated_force_sum_witness :
  exists ball',
    updateBall false (of_int 1) 1 (twoBalls (F:=binary32)) !! 1 = Some ball' /\
    acceleration ball' =
      spec_kahan_sum
        [Vector2Scale (spec_force (restingBall 130 100 5 5) (restingBall 100 100 5 5))
                      (div (of_int 1) (of_int 5))].
Proof.
  destruct acceleration_is_compensated_force_sum as (Hany & _).
  destruct (Hany binary32 _ (of_int 1) twoBalls 1 (restingBall 130 100 5 5) eq_refl)
    as (_ & ball' & Hl & Ha).
  exists ball'. split; [exact Hl | exact Ha].
Defined.

(** C2 as worded fails for two balls at the same spot.  The formula gives
    the pull between a ball of mass 5 and a ball of mass 10 at distance 0
    the magnitude 1000 * 5 * 10 / (0 + 10)^2 = 500, but the direction is
    the normalisation of the zero vector, which is the zero vector: the
    force computed is (0, 0), of length 0, and the acceleration that the
    loop body stores in the first ball is (0, 0).  It is so over the reals
    and in single precision.  In single precision, moreover, the length of
    the force between two balls at distinct spots need not be the value of
    the formula: for balls of mass 5 at (100, 100) and (104, 103) the two
    differ in the last place. *)
Lemma stacked_balls_exert_no_force :
  (exists ball1 ball2 : Ball R,
      stackedBalls = [ball1; ball2] /\
      position ball1 = position ball2 /\
      spec_magnitude (mass ball1) (mass ball2)
        (Vector2Distance (position ball1) (position ball2)) = 500%R /\
      calculateGravitationalForce ball1 ball2 = Vector2Zero /\
      Vector2Length (calculateGravitationalForce ball1 ball2) = 0%R /\
      exists ball1',
        updateBall false 1%R 0 stackedBalls !! 0 = Some ball1' /\
        acceleration ball1' = Vector2Zero) /\
  (exists ball1 ball2 : Ball binary32,
      stackedBalls = [ball1; ball2] /\
      position ball1 = position ball2 /\
      spec_magnitude (mass ball1) (mass ball2)
        (Vector2Distance (position ball1) (position ball2)) = of_int 500 /\
      calculateGravitationalForce ball1 ball2 = Vector2Zero /\
      Vector2Length (calculateGravitationalForce ball1 ball2) = of_int 0 /\
      of_int 0 <> of_int (F:=binary32) 500 /\
      exists ball1',
        updateBall false (of_int 1) 0 stackedBalls !! 0 = Some ball1' /\
        acceleration ball1' = Vector2Zero) /\
  (let ball1 := (closePair (F:=binary32)).1 in
   let ball2 := (closePair (F:=binary32)).2 in
   position ball1 <> position ball2 /\
   Vector2Length (calculateGravitationalForce ball1 ball2)
   <> spec_magnitude (mass ball1) (mass ball2)
        (Vector2Distance (position ball1) (position ball2))).
Proof.
  split; [|split; [|cbv zeta; split; vm_compute; discriminate]].
  - exists (restingBall 100 100 5 5), (restingBall 100 100 5 10).
    assert (Hdist : Vector2Distance (position (restingBall (F:=R) 100 100 5 5))
                      (position (restingBall (F:=R) 100 100 5 10)) = 0%R).
    { unfold Vector2Distance. cbn [restingBall position x y]. at_R.
      apply sqrt_unique; lra. }
    assert (Hforce : calculateGravitationalForce (restingBall (F:=R) 100 100 5 5)
                       (restingBall 100 100 5 10) = Vector2Zero).
    { unfold calculateGravitationalForce. cbn [restingBall position].
      assert (Hz : Vector2Subtract (mkVector2 (of_int 100) (of_int 100))
                     (mkVector2 (of_int 100) (of_int 100)) = Vector2Zero (F:=R))
        by vec_eq.
      rewrite Hz, Vector2Normalize_R_zero. vec_eq. }
    split; [reflexivity|]. split; [reflexivity|]. split.
    { rewrite Hdist. unfold spec_magnitude.
      cbn [restingBall mass of_int add mul div R_Scalar]. field. }
    split; [exact Hforce|]. split.
    { rewrite Hforce. unfold Vector2Length, Vector2Zero. cbn [x y]. at_R.
      apply sqrt_unique; lra. }
    eexists. split; [by apply updateBall_lookup|].
    destruct (wrapBounds_keeps
                (integrate 1%R stackedBalls 0 (restingBall (F:=R) 100 100 5 5)))
      as (_ & -> & _).
    rewrite integrate_acceleration, kahanSum_exact.
    unfold stackedBalls, others. cbn [take drop app map].
    unfold contribution. rewrite Hforce. unfold vector_sum. cbn [map fold_right].
    vec_eq.
  - exists (restingBall 100 100 5 5), (restingBall 100 100 5 10).
    split; [reflexivity|]. split; [reflexivity|].
    split; [vm_compute; reflexivity|].
    split; [vm_compute; reflexivity|].
    split; [vm_compute; reflexivity|].
    split; [vm_compute; discriminate|].
    eexists. split; vm_compute; reflexivity.
Qed.

(** ** Mouse input *)

Lemma ball_at_store_at {F} (balls : list (Ball F)) (i : Z) (ball ball' : Ball F) :
  ball_at balls i = Some ball -> ball_at (store_at balls i ball') i = Some ball'.
Proof.
  unfold ball_at, store_at. destruct (i <? 0)%Z; [done|].
  intros Hi. apply list_lookup_insert_eq. by eapply lookup_lt_Some.
Qed.

Lemma ball_at_store_at_ne {F} (balls : list (Ball F)) (i j : Z) (ball' : Ball F) :
  i <> j -> ball_at (store_at balls i ball') j = ball_at balls j.
Proof.
  unfold ball_at, store_at. intros Hne.
  destruct (Z.ltb_spec j 0); [done|].
  destruct (Z.ltb_spec i 0); [done|].
  apply list_lookup_insert_ne. lia.
Qed.

Lemma store_at_length {F} (balls : list (Ball F)) (i : Z) (ball' : Ball F) :
  length (store_at balls i ball') = length balls.
Proof. unfold store_at. destruct (i <? 0)%Z; [done|apply length_insert]. Qed.

(** * Further properties of the program *)

(** ** The press, release and drag handlers *)

Section Handlers.
Context {F : Type} `{Scalar F}.
Variable hit : Vector2 F -> Vector2 F -> F -> bool.

(* The search returns the least index at or after [k] whose ball is hit. *)
Lemma firstHit_Some (point : Vector2 F) (k i : nat) (balls : list (Ball F)) :
  firstHit hit point k balls = Some i <->
  exists ball, k <= i /\ balls !! (i - k) = Some ball /\
    hit point (position ball) (radius ball) = true /\
    forall j other, j < i - k -> balls !! j = Some other ->
      hit point (position other) (radius other) = false.
Proof.
  revert k. induction balls as [|first rest IH]; intros k; cbn [firstHit].
  { split; [done|]. by intros (ball & _ & Hl & _). }
  destruct (hit point (position first) (radius first)) eqn:Hfirst.
  - split.
    + intros [= <-]. exists first. rewrite Nat.sub_diag.
      split; [lia|split; [done|split; [done|]]]. intros j other Hj. lia.
    + intros (ball & Hk & Hl & Hhit & Hbefore). f_equal.
      destruct (i - k) as [|d] eqn:Hd; [lia|].
      specialize (Hbefore 0 first). cbn in Hbefore.
      rewrite Hfirst in Hbefore. discriminate Hbefore; [lia|done].
  - rewrite IH. split.
    + intros (ball & Hk & Hl & Hhit & Hbefore). exists ball.
      replace (i - k) with (S (i - S k)) by lia.
      split; [lia|split; [done|split; [done|]]].
      intros [|j] other Hj; cbn; [by intros [= <-]|].
      intros Hother. apply (Hbefore j); [lia|done].
    + intros (ball & Hk & Hl & Hhit & Hbefore).
      destruct (i - k) as [|d] eqn:Hd.
      { cbn in Hl. injection Hl as <-. congruence. }
      exists ball. replace (i - S k) with d by lia.
      split; [lia|split; [done|split; [done|]]].
      intros j other Hj Hother. apply (Hbefore (S j)); [lia|done].
Qed.

Lemma firstHit_None (point : Vector2 F) (k : nat) (balls : list (Ball F)) :
  firstHit hit point k balls = None <->
  forall j other, balls !! j = Some other ->
    hit point (position other) (radius other) = false.
Proof.
  revert k. induction balls as [|first rest IH]; intros k; cbn [firstHit].
  { split; [|done]. by intros _ j other. }
  destruct (hit point (position first) (radius first)) eqn:Hfirst.
  - split; [done|]. intros Hall. specialize (Hall 0 first eq_refl). congruence.
  - rewrite IH. split.
    + intros Hall [|j] other; cbn; [by intros [= <-]|apply Hall].
    + intros Hall j other Hj. by apply (Hall (S j)).
Qed.
End Handlers.

(** X1.  A press picks the first ball under the pointer: when the button
    goes down and ball i is hit while no ball of lower index is, the drag
    starts on ball i; when no ball is hit the state is left as it was.
    The balls themselves are never touched by the press handler. *)
Theorem press_picks_first_ball_under_pointer
    {F : Type} `{Scalar F} (hit : Vector2 F -> Vector2 F -> F -> bool)
    (inp : Input F) (st : Sim F) :
  IsMouseButtonPressed inp = true ->
  (forall i ball,
      st_balls st !! i = Some ball ->
      hit (GetMousePosition inp) (position ball) (radius ball) = true ->
      (forall j other, j < i -> st_balls st !! j = Some other ->
         hit (GetMousePosition inp) (position other) (radius other) = false) ->
      handlePress hit inp st = mkSim (st_balls st) true (Z.of_nat i)) /\
  ((forall j other, st_balls st !! j = Some other ->
      hit (GetMousePosition inp) (position other) (radius other) = false) ->
   handlePress hit inp st = st) /\
  st_balls (handlePress hit inp st) = st_balls st.
Proof.
  intros Hpress. unfold handlePress. rewrite Hpress. split; [|split].
  - intros i ball Hi Hhit Hbefore.
    assert (Hfirst : firstHit hit (GetMousePosition inp) 0 (st_balls st) = Some i).
    { apply firstHit_Some. exists ball. rewrite Nat.sub_0_r.
      split; [lia|]. split; [done|]. split; done. }
    by rewrite Hfirst.
  - intros Hnone.
    assert (Hfirst : firstHit hit (GetMousePosition inp) 0 (st_balls st) = None)
      by (by apply firstHit_None).
    by rewrite Hfirst.
  - by destruct (firstHit _ _ _ _).
Qed.

Lemma press_picks_first_ball_under_pointer_witness :
  handlePress anyHit pressInput (mkSim (twoBalls (F:=binary32)) false (-1))
  = mkSim twoBalls true 0.
Proof.
  destruct (press_picks_first_ball_under_pointer anyHit pressInput
              (mkSim (twoBalls (F:=binary32)) false (-1)) eq_refl) as (Hfirst & _).
  apply (Hfirst 0 (restingBall 100 100 5 5)); [reflexivity|reflexivity|].
  intros j other Hj. lia.
Defined.

Lemma handleRelease_flags {F} `{Scalar F} (inp : Input F) (st : Sim F) :
  IsMouseButtonReleased inp = true -> st_isDragging st = true ->
  st_isDragging (handleRelease inp st) = false /\
  st_draggedBallIndex (handleRelease inp st) = st_draggedBallIndex st.
Proof.
  intros Hrel Hdrag. unfold handleRelease. rewrite Hrel, Hdrag. cbn [andb].
  by destruct (ball_at _ _).
Qed.

(** X2.  A release that ends a drag writes the velocity of the dragged
    ball and nothing else: the drag flag drops, the index stays, the vector
    keeps its length, every other ball is untouched, the dragged ball keeps
    its position, radius, mass and acceleration, and the drag handler that
    follows in the same frame finds nothing to do. *)
Theorem release_sets_only_the_dragged_velocity
    {F : Type} `{Scalar F} (inp : Input F) (st : Sim F) (ball : Ball F) :
  IsMouseButtonReleased inp = true ->
  st_isDragging st = true ->
  ball_at (st_balls st) (st_draggedBallIndex st) = Some ball ->
  let st' := handleRelease inp st in
  st_isDragging st' = false /\
  st_draggedBallIndex st' = st_draggedBallIndex st /\
  length (st_balls st') = length (st_balls st) /\
  ball_at (st_balls st') (st_draggedBallIndex st)
    = Some (mkBall (position ball) (releaseVelocity inp ball) (acceleration ball)
                   (radius ball) (mass ball) (color ball)) /\
  (forall j, j <> st_draggedBallIndex st ->
     ball_at (st_balls st') j = ball_at (st_balls st) j) /\
  handleDrag inp st' = st'.
Proof.
  intros Hrel Hdrag Hball st'.
  destruct (handleRelease_flags inp st Hrel Hdrag) as [Hflag Hidx].
  fold st' in Hflag, Hidx.
  assert (Hballs : st_balls st' =
    store_at (st_balls st) (st_draggedBallIndex st)
      (set_velocity ball (releaseVelocity inp ball))).
  { unfold st', handleRelease. by rewrite Hrel, Hdrag, Hball. }
  split; [done|]. split; [done|]. rewrite Hballs.
  split; [apply store_at_length|].
  split; [by eapply ball_at_store_at|].
  split; [intros j Hj; by apply ball_at_store_at_ne|].
  unfold handleDrag. by rewrite Hflag.
Qed.

Lemma release_sets_only_the_dragged_velocity_witness :
  st_isDragging (handleRelease releaseInput (mkSim (twoBalls (F:=binary32)) true 0))
  = false.
Proof.
  apply (release_sets_only_the_dragged_velocity releaseInput
           (mkSim (twoBalls (F:=binary32)) true 0) (restingBall 100 100 5 5));
    reflexivity.
Defined.

(** X3.  A release outside a drag, and a frame without a release, leave
    the state exactly as it was. *)
Theorem release_ignored_outside_drag
    {F : Type} `{Scalar F} (inp : Input F) (st : Sim F) :
  IsMouseButtonReleased inp = false \/ st_isDragging st = false ->
  handleRelease inp st = st.
Proof.
  intros [Hrel|Hdrag]; unfold handleRelease.
  - by rewrite Hrel.
  - rewrite Hdrag. by destruct (IsMouseButtonReleased inp).
Qed.

Lemma release_ignored_outside_drag_witness :
  handleRelease releaseInput (mkSim (twoBalls (F:=binary32)) false (-1))
  = mkSim twoBalls false (-1).
Proof.
  apply (release_ignored_outside_drag releaseInput
           (mkSim (twoBalls (F:=binary32)) false (-1))).
  right. reflexivity.
Defined.

Lemma store_at_twice {F} (balls : list (Ball F)) (i : Z) (ball ball' : Ball F) :
  store_at (store_at balls i ball) i ball' = store_at balls i ball'.
Proof.
  unfold store_at. destruct (i <? 0)%Z; [done|]. apply list_insert_insert_eq.
Qed.

(** X4.  While a drag lasts the drag handler pins the dragged ball to the
    pointer: its position becomes (GetMouseX, GetMouseY), its velocity,
    acceleration, radius and mass stay, every other ball is untouched, the
    drag goes on, and handling the same input twice changes nothing more.
    Outside a drag the handler does nothing. *)
Theorem drag_pins_ball_to_pointer
    {F : Type} `{Scalar F} (inp : Input F) (st : Sim F) (ball : Ball F) :
  ball_at (st_balls st) (st_draggedBallIndex st) = Some ball ->
  let st' := handleDrag inp (mkSim (st_balls st) true (st_draggedBallIndex st)) in
  st_isDragging st' = true /\
  st_draggedBallIndex st' = st_draggedBallIndex st /\
  length (st_balls st') = length (st_balls st) /\
  ball_at (st_balls st') (st_draggedBallIndex st)
    = Some (mkBall (mkVector2 (of_int (GetMouseX inp)) (of_int (GetMouseY inp)))
                   (velocity ball) (acceleration ball)
                   (radius ball) (mass ball) (color ball)) /\
  (forall j, j <> st_draggedBallIndex st ->
     ball_at (st_balls st') j = ball_at (st_balls st) j) /\
  handleDrag inp st' = st' /\
  handleDrag inp (mkSim (st_balls st) false (st_draggedBallIndex st))
    = mkSim (st_balls st) false (st_draggedBallIndex st).
Proof.
  intros Hball st'.
  assert (Hst' : st' =
    mkSim (store_at (st_balls st) (st_draggedBallIndex st)
             (set_position ball
                (mkVector2 (of_int (GetMouseX inp)) (of_int (GetMouseY inp)))))
          true (st_draggedBallIndex st)).
  { unfold st', handleDrag. cbn [st_isDragging st_balls st_draggedBallIndex].
    by rewrite Hball. }
  rewrite Hst'. cbn [st_isDragging st_balls st_draggedBallIndex].
  split; [done|]. split; [done|].
  split; [apply store_at_length|].
  split; [by eapply ball_at_store_at|].
  split; [intros j Hj; by apply ball_at_store_at_ne|].
  split; [|done].
  unfold handleDrag. cbn [st_isDragging st_balls st_draggedBallIndex].
  erewrite ball_at_store_at by done.
  by rewrite store_at_twice.
Qed.

Lemma drag_pins_ball_to_pointer_witness :
  st_isDragging (handleDrag quietInput (mkSim (twoBalls (F:=binary32)) true 1)) = true.
Proof.
  apply (drag_pins_ball_to_pointer quietInput
           (mkSim (twoBalls (F:=binary32)) true 1) (restingBall 130 100 5 5)).
  reflexivity.
Defined.

(** ** The frame as a whole *)

(** X5.  The three handlers run in the order press, release, drag, so a
    release that ends a drag takes effect in its own frame: the drag
    handler no longer moves the ball, and the update loop of that same
    frame already integrates every ball, the released one included, with
    the velocity the release gave it. *)
Theorem release_frame_resumes_physics
    {F : Type} `{Scalar F} (hit : Vector2 F -> Vector2 F -> F -> bool)
    (inp : Input F) (st : Sim F) :
  let st1 := handlePress hit inp st in
  IsMouseButtonReleased inp = true ->
  st_isDragging st1 = true ->
  frame hit inp st =
    mkSim (handleCollisions
             (updateBalls false (GetFrameTime inp)
                (st_balls (handleRelease inp st1))))
          false (st_draggedBallIndex st1).
Proof.
  intros st1 Hrel Hdrag.
  destruct (handleRelease_flags inp st1 Hrel Hdrag) as [Hflag Hidx].
  unfold frame. fold st1. cbv zeta.
  assert (Hd : handleDrag inp (handleRelease inp st1) = handleRelease inp st1)
    by (unfold handleDrag; by rewrite Hflag).
  by rewrite Hd, Hflag, Hidx.
Qed.

Lemma release_frame_resumes_physics_witness :
  st_isDragging (frame noHit releaseInput (mkSim (twoBalls (F:=binary32)) true 0))
  = false.
Proof.
  rewrite (release_frame_resumes_physics noHit releaseInput
             (mkSim (twoBalls (F:=binary32)) true 0)); reflexivity.
Defined.

(** X6.  A frame with no press, outside a drag, is pure physics: the
    handlers leave the state alone and the frame is the update loop
    followed by the collision passes; the drag flag and index are carried
    over unchanged. *)
Theorem idle_frame_is_update_then_collisions
    {F : Type} `{Scalar F} (hit : Vector2 F -> Vector2 F -> F -> bool)
    (inp : Input F) (st : Sim F) :
  IsMouseButtonPressed inp = false ->
  st_isDragging st = false ->
  frame hit inp st =
    mkSim (handleCollisions (updateBalls false (GetFrameTime inp) (st_balls st)))
          false (st_draggedBallIndex st).
Proof.
  intros Hpress Hdrag. unfold frame. cbv zeta.
  assert (H1 : handlePress hit inp st = st)
    by (unfold handlePress; by rewrite Hpress).
  rewrite H1.
  assert (H2 : handleRelease inp st = st).
  { unfold handleRelease. rewrite Hdrag. by destruct (IsMouseButtonReleased inp). }
  rewrite H2.
  assert (H3 : handleDrag inp st = st)
    by (unfold handleDrag; by rewrite Hdrag).
  by rewrite H3, Hdrag.
Qed.

Lemma idle_frame_is_update_then_collisions_witness :
  st_draggedBallIndex
    (frame noHit quietInput (mkSim (twoBalls (F:=binary32)) false (-1)))
  = (-1)%Z.
Proof.
  rewrite (idle_frame_is_update_then_collisions noHit quietInput
             (mkSim (twoBalls (F:=binary32)) false (-1))); reflexivity.
Defined.

(** ** The integrator *)

(** X7.  The step of one ball is semi-implicit Euler.  In any arithmetic
    the new velocity is the compensated sum of the old velocity and
    acceleration * deltaTime, taken with the acceleration just computed,
    and the new position is the compensated sum of the old position and
    velocity * deltaTime, taken with the new velocity.  Over the reals
    these are v + a' * dt and p + v' * dt, and a' is the plain sum of the
    contributions of the other balls.  Radius, mass and colour are not
    written. *)
Theorem integrate_is_semi_implicit_euler :
  (forall (F : Type) (ops : Scalar F) (dt : F) (balls : list (Ball F)) (i : nat)
          (ball : Ball F),
      let ball' := integrate dt balls i ball in
      velocity ball' =
        kahanSum [velocity ball; Vector2Scale (acceleration ball') dt] /\
      position ball' =
        kahanSum [position ball; Vector2Scale (velocity ball') dt] /\
      body ball' = body ball) /\
  (forall (dt : R) (balls : list (Ball R)) (i : nat) (ball : Ball R),
      let ball' := integrate dt balls i ball in
      velocity ball' = Vector2Add (velocity ball) (Vector2Scale (acceleration ball') dt) /\
      position ball' = Vector2Add (position ball) (Vector2Scale (velocity ball') dt) /\
      acceleration ball' =
        vector_sum (map (fun other =>
                           Vector2Scale (calculateGravitationalForce ball other)
                                        (1 / mass ball)%R)
                        (others i balls))).
Proof.
  assert (Hgen : forall (F : Type) (ops : Scalar F) (dt : F)
                        (balls : list (Ball F)) (i : nat) (ball : Ball F),
      let ball' := integrate dt balls i ball in
      velocity ball' =
        kahanSum [velocity ball; Vector2Scale (acceleration ball') dt] /\
      position ball' =
        kahanSum [position ball; Vector2Scale (velocity ball') dt] /\
      body ball' = body ball) by done.
  split; [exact Hgen|].
  intros dt balls i ball ball'.
  destruct (Hgen R _ dt balls i ball) as (Hv & Hp & _). fold ball' in Hv, Hp.
  rewrite kahanSum_exact in Hv, Hp.
  split; [|split].
  - rewrite Hv. unfold vector_sum. cbn [map fold_right]. vec_eq.
  - rewrite Hp. unfold vector_sum. cbn [map fold_right]. vec_eq.
  - unfold ball'. rewrite integrate_acceleration. apply kahanSum_exact.
Qed.

(** ** What a frame never changes *)

Lemma for_loop_invariant {S : Type} (P : S -> Prop) (lo hi : nat)
    (step : nat -> S -> S) (s : S) :
  (forall k t, lo <= k < hi -> P t -> P (step k t)) -> P s ->
  P (for_loop lo hi step s).
Proof.
  intros Hstep Hs. destruct (decide (hi <= lo)) as [Hle|Hgt].
  { by rewrite for_loop_empty. }
  assert (Hlo : lo <= hi) by lia. clear Hgt.
  induction Hlo as [|hi Hlo IH]; [by rewrite for_loop_empty|].
  replace (Datatypes.S hi) with (hi + 1) by lia.
  rewrite for_loop_last by done. apply Hstep; [lia|].
  apply IH. intros k t Hk. apply Hstep. lia.
Qed.

Section Bodies.
Context {F : Type} `{Scalar F}.

(* Writing a ball of the same make keeps the makes of the vector. *)
Lemma same_bodies_insert (l : list (Ball F)) (i : nat) (ball ball' : Ball F) :
  l !! i = Some ball -> body ball' = body ball ->
  map body (<[i := ball']> l) = map body l.
Proof.
  intros Hi Hb. apply list_eq. intros k.
  rewrite !list_lookup_fmap.
  destruct (decide (k = i)) as [->|Hne].
  - rewrite list_lookup_insert_eq by (by eapply lookup_lt_Some).
    rewrite Hi. cbn. by rewrite Hb.
  - by rewrite list_lookup_insert_ne.
Qed.

Lemma store_at_bodies (balls : list (Ball F)) (i : Z) (ball ball' : Ball F) :
  ball_at balls i = Some ball -> body ball' = body ball ->
  map body (store_at balls i ball') = map body balls.
Proof.
  unfold ball_at, store_at. destruct (i <? 0)%Z; [done|].
  apply same_bodies_insert.
Qed.

Lemma wrapBounds_body (ball : Ball F) : body (wrapBounds ball) = body ball.
Proof.
  destruct (wrapBounds_keeps ball) as (_ & _ & Hr & Hm & Hc).
  unfold body. by rewrite Hr, Hm, Hc.
Qed.

Lemma updateBall_bodies (flag : bool) (dt : F) (i : nat) (balls : list (Ball F)) :
  map body (updateBall flag dt i balls) = map body balls.
Proof.
  unfold updateBall. destruct (balls !! i) as [ball|] eqn:Hi; [|done].
  apply (same_bodies_insert _ _ ball); [done|].
  rewrite wrapBounds_body. by destruct flag.
Qed.

Lemma resolveBallCollision_body (ball1 ball2 : Ball F) :
  body (resolveBallCollision ball1 ball2).1 = body ball1 /\
  body (resolveBallCollision ball1 ball2).2 = body ball2.
Proof.
  rewrite resolveBallCollision_split.
  unfold applyImpulse, correctPositions.
  destruct (ltb (collisionRelativeSpeed ball1 ball2) _);
    destruct (ltb (Vector2Distance _ _) _); done.
Qed.

Lemma collidePair_bodies (i j : nat) (balls : list (Ball F)) :
  map body (collidePair i j balls) = map body balls.
Proof.
  unfold collidePair.
  destruct (balls !! i) as [ball1|] eqn:Hi; [|done].
  destruct (balls !! j) as [ball2|] eqn:Hj; [|done].
  destruct (checkBallCollision ball1 ball2); [|done].
  destruct (resolveBallCollision_body ball1 ball2) as [Hb1 Hb2].
  destruct (resolveBallCollision ball1 ball2) as [ball1' ball2'].
  cbn [fst snd] in Hb1, Hb2.
  destruct (decide (j = i)) as [->|Hne].
  - rewrite list_insert_insert_eq. apply (same_bodies_insert _ _ ball2); done.
  - transitivity (map body (<[i := ball1']> balls)).
    + apply (same_bodies_insert _ _ ball2); [|done].
      by rewrite list_lookup_insert_ne.
    + by apply (same_bodies_insert _ _ ball1).
Qed.

Lemma updateBalls_bodies (flag : bool) (dt : F) (balls : list (Ball F)) :
  map body (updateBalls flag dt balls) = map body balls.
Proof.
  unfold updateBalls.
  apply (for_loop_invariant (fun l => map body l = map body balls)); [|done].
  intros k l _ Hl. by rewrite updateBall_bodies.
Qed.

Lemma handleCollisions_bodies (balls : list (Ball F)) :
  map body (handleCollisions balls) = map body balls.
Proof.
  unfold handleCollisions.
  apply (for_loop_invariant (fun l => map body l = map body balls)); [|done].
  intros iteration l _ Hl.
  apply (for_loop_invariant (fun l => map body l = map body balls)); [|done].
  intros i l1 _ Hl1.
  apply (for_loop_invariant (fun l => map body l = map body balls)); [|done].
  intros j l2 _ Hl2. by rewrite collidePair_bodies.
Qed.

Lemma handleRelease_bodies (inp : Input F) (st : Sim F) :
  map body (st_balls (handleRelease inp st)) = map body (st_balls st).
Proof.
  unfold handleRelease.
  destruct (IsMouseButtonReleased inp && st_isDragging st); [|done].
  destruct (ball_at _ _) as [ball|] eqn:Hb; [|done].
  cbn [st_balls]. by apply (store_at_bodies _ _ ball).
Qed.

Lemma handleDrag_bodies (inp : Input F) (st : Sim F) :
  map body (st_balls (handleDrag inp st)) = map body (st_balls st).
Proof.
  unfold handleDrag.
  destruct (st_isDragging st); [|done].
  destruct (ball_at _ _) as [ball|] eqn:Hb; [|done].
  cbn [st_balls]. by apply (store_at_bodies _ _ ball).
Qed.

Lemma handlePress_balls (hit : Vector2 F -> Vector2 F -> F -> bool)
    (inp : Input F) (st : Sim F) :
  st_balls (handlePress hit inp st) = st_balls st.
Proof.
  unfold handlePress. destruct (IsMouseButtonPressed inp); [|done].
  by destruct (firstHit _ _ _ _).
Qed.

Lemma frame_bodies (hit : Vector2 F -> Vector2 F -> F -> bool)
    (inp : Input F) (st : Sim F) :
  map body (st_balls (frame hit inp st)) = map body (st_balls st).
Proof.
  unfold frame. cbv zeta. cbn [st_balls].
  rewrite handleCollisions_bodies, updateBalls_bodies, handleDrag_bodies,
    handleRelease_bodies. by rewrite handlePress_balls.
Qed.
End Bodies.

(** X8.  No frame creates, removes or remakes a ball: whatever the input,
    the vector keeps its length, and every ball keeps the radius, mass and
    colour it had, index by index; and so it is after any number of
    frames. *)
Theorem frames_keep_every_body
    {F : Type} `{Scalar F} (hit : Vector2 F -> Vector2 F -> F -> bool) :
  (forall (inp : Input F) (st : Sim F),
      length (st_balls (frame hit inp st)) = length (st_balls st) /\
      map radius (st_balls (frame hit inp st)) = map radius (st_balls st) /\
      map mass (st_balls (frame hit inp st)) = map mass (st_balls st) /\
      map color (st_balls (frame hit inp st)) = map color (st_balls st)) /\
  (forall (inputs : list (Input F)) (st : Sim F),
      map body (st_balls (fold_left (fun st inp => frame hit inp st) inputs st))
      = map body (st_balls st)).
Proof.
  assert (Hproj : forall l l' : list (Ball F), map body l' = map body l ->
    length l' = length l /\ map radius l' = map radius l /\
    map mass l' = map mass l /\ map color l' = map color l).
  { intros l l' Heq. split; [|split; [|split]].
    - by rewrite <- (length_map body l'), Heq, length_map.
    - change radius with (fun ball : Ball F => (body ball).1.1).
      rewrite <- !(map_map body (fun t : F * F * Color.t => t.1.1)). by rewrite Heq.
    - change mass with (fun ball : Ball F => (body ball).1.2).
      rewrite <- !(map_map body (fun t : F * F * Color.t => t.1.2)). by rewrite Heq.
    - change color with (fun ball : Ball F => (body ball).2).
      rewrite <- !(map_map body (fun t : F * F * Color.t => t.2)). by rewrite Heq. }
  split.
  - intros inp st. apply Hproj, frame_bodies.
  - intros inputs. induction inputs as [|inp inputs IH]; intros st; [done|].
    cbn [fold_left]. rewrite IH. apply frame_bodies.
Qed.

(** ** More on the collision passes *)

Section PassFacts.
Context {F : Type} `{Scalar F}.

Lemma collidePair_other (i j k : nat) (balls : list (Ball F)) :
  k <> i -> k <> j -> collidePair i j balls !! k = balls !! k.
Proof.
  intros Hi Hj. unfold collidePair.
  destruct (balls !! i) as [ball1|]; [|done].
  destruct (balls !! j) as [ball2|]; [|done].
  destruct (checkBallCollision ball1 ball2); [|done].
  destruct (resolveBallCollision ball1 ball2).
  by rewrite !list_lookup_insert_ne.
Qed.

Lemma fold_left_fixed {A B : Type} (f : A -> B -> A) (l : list B) (s : A) :
  (forall b, In b l -> f s b = s) -> fold_left f l s = s.
Proof.
  induction l as [|b l IH]; intros Hfix; [done|].
  cbn [fold_left]. rewrite (Hfix b) by (by left).
  apply IH. intros b' Hb'. apply Hfix. by right.
Qed.

Lemma quiet_pass (balls : list (Ball F)) :
  (forall i j ball1 ball2, i < j ->
     balls !! i = Some ball1 -> balls !! j = Some ball2 ->
     checkBallCollision ball1 ball2 = false) ->
  collision_pass balls = balls.
Proof.
  intros Hquiet. unfold collision_pass. apply fold_left_fixed.
  intros [i j] Hin. apply index_pairs_In in Hin. cbn [fst snd].
  unfold collidePair.
  destruct (balls !! i) as [ball1|] eqn:Hi; [|done].
  destruct (balls !! j) as [ball2|] eqn:Hj; [|done].
  rewrite (Hquiet i j ball1 ball2); [done|lia|done|done].
Qed.
End PassFacts.

(** X9.  Handling the pair (i, j) reads and writes balls i and j only:
    the vector keeps its length and every other ball is left as it was. *)
Theorem collidePair_touches_only_its_pair
    {F : Type} `{Scalar F} (i j k : nat) (balls : list (Ball F)) :
  k <> i -> k <> j ->
  collidePair i j balls !! k = balls !! k /\
  length (collidePair i j balls) = length balls.
Proof.
  intros Hi Hj. split; [by apply collidePair_other|apply collidePair_length].
Qed.

Lemma collidePair_touches_only_its_pair_witness :
  collidePair 0 1 (twoBalls (F:=binary32) ++ [restingBall 100 100 5 5]) !! 2
  = Some (restingBall 100 100 5 5).
Proof.
  destruct (collidePair_touches_only_its_pair 0 1 2
              (twoBalls (F:=binary32) ++ [restingBall 100 100 5 5])) as [Hk _];
    [lia|lia|].
  rewrite Hk. reflexivity.
Defined.

(** X10.  A vector in which no two balls collide is a fixed point of the
    collision handling: a pass changes nothing, and neither do the ten
    passes of handleCollisions.  In particular a vector of fewer than two
    balls is always left as it is. *)
Theorem quiet_vector_is_left_alone {F : Type} `{Scalar F} (balls : list (Ball F)) :
  (forall i j ball1 ball2, i < j ->
     balls !! i = Some ball1 -> balls !! j = Some ball2 ->
     checkBallCollision ball1 ball2 = false) ->
  collision_pass balls = balls /\ handleCollisions balls = balls.
Proof.
  intros Hquiet. pose proof (quiet_pass balls Hquiet) as Hpass.
  split; [done|]. rewrite handleCollisions_passes.
  cbn [Nat.iter nat_rect]. by rewrite !Hpass.
Qed.

Lemma quiet_vector_is_left_alone_witness :
  handleCollisions (twoBalls (F:=binary32)) = twoBalls.
Proof.
  apply (quiet_vector_is_left_alone (twoBalls (F:=binary32))).
  intros i j ball1 ball2 Hij Hi Hj.
  destruct j as [|[|j]]; [lia| |done].
  destruct i as [|i]; [|lia].
  injection Hi as <-. injection Hj as <-. vm_compute. reflexivity.
Defined.

Lemma index_rows_count (n len lo : nat) :
  lo + len = n ->
  2 * length (flat_map (fun i => map (fun j => (i, j)) (seq (i + 1) (n - (i + 1))))
                       (seq lo len))
  = len * (len - 1).
Proof.
  revert lo. induction len as [|len IH]; intros lo Hn; [done|].
  cbn [seq flat_map]. rewrite length_app, length_map, length_seq.
  specialize (IH (Datatypes.S lo)). nia.
Qed.

(* The loop nest runs its body along the list of index pairs. *)
Lemma pairLoops_fold {S : Type} (n : nat) (visit : nat -> nat -> S -> S) (s : S) :
  pairLoops n visit s = fold_left (fun s p => visit p.1 p.2 s) (index_pairs n) s.
Proof.
  unfold pairLoops, index_pairs, for_loop.
  rewrite fold_left_flat_map, Nat.sub_0_r.
  apply (fold_left_inv_ext (fun _ => True)); [done| |done].
  intros t i _. by rewrite fold_left_map_list.
Qed.

Lemma fold_left_snoc {A : Type} (l acc : list A) :
  fold_left (fun trace a => trace ++ [a]) l acc = acc ++ l.
Proof.
  revert acc. induction l as [|a l IH]; intros acc; cbn [fold_left].
  - by rewrite app_nil_r.
  - rewrite IH. by rewrite <- app_assoc.
Qed.

Lemma fold_left_count {A : Type} (l : list A) (c : nat) :
  fold_left (fun count _ => Datatypes.S count) l c = c + length l.
Proof.
  revert c. induction l as [|a l IH]; intros c; cbn [fold_left length]; [lia|].
  rewrite IH. lia.
Qed.

Lemma iter_ext {A : Type} (f g : A -> A) (n : nat) (a : A) :
  (forall a, f a = g a) -> Nat.iter n f a = Nat.iter n g a.
Proof.
  intros Hfg. induction n as [|n IH]; [done|].
  change (f (Nat.iter n f a) = g (Nat.iter n g a)). by rewrite IH, Hfg.
Qed.

(** X11.  A pass is the loop nest over i < j with collidePair as its
    body, and handleCollisions is ten such passes.  Run over n balls with a
    body that records the pair it is given, the loop nest records every
    pair (i, j) with i < j < n, each once, in row order; run with a body
    that counts, it counts n * (n - 1) / 2. *)
Theorem pass_meets_every_pair_once :
  (forall (F : Type) (ops : Scalar F) (balls : list (Ball F)),
      handleCollisions balls =
        Nat.iter 10 (fun balls => pairLoops (length balls) collidePair balls) balls) /\
  (forall n : nat,
      pairLoops n (fun i j trace => trace ++ [(i, j)]) [] = index_pairs n /\
      2 * pairLoops n (fun _ _ count => Datatypes.S count) 0 = n * (n - 1) /\
      NoDup (index_pairs n) /\
      (forall i j, In (i, j) (index_pairs n) <-> i < j < n)).
Proof.
  split.
  - intros F ops balls. rewrite handleCollisions_passes.
    apply iter_ext. intros l. unfold collision_pass.
    by rewrite pairLoops_fold.
  - intros n. split; [|split; [|split]].
    + rewrite pairLoops_fold.
      transitivity (fold_left (fun trace p => trace ++ [p]) (index_pairs n) []);
        [|apply fold_left_snoc].
      apply (fold_left_inv_ext (fun _ => True)); [done| |done].
      intros trace [i j] _. reflexivity.
    + rewrite pairLoops_fold, fold_left_count. cbn [Nat.add].
      by apply index_rows_count.
    + pose proof (index_rows_sorted n 0 n) as Hsorted.
      fold (index_pairs n) in Hsorted.
      induction Hsorted as [|p l Hs IH Hall]; constructor; [|done].
      intros Hin. rewrite Forall_forall in Hall. specialize (Hall p Hin).
      unfold pair_before in Hall. lia.
    + apply index_pairs_In.
Qed.

(** ** More on gravity and collisions, over the reals *)

Lemma Vector2Length_flip (v1 v2 : Vector2 R) :
  Vector2Length (Vector2Subtract v1 v2) = Vector2Length (Vector2Subtract v2 v1).
Proof.
  unfold Vector2Length, Vector2Subtract. cbn [x y]. at_R. f_equal. ring.
Qed.

Lemma Vector2Subtract_self (v : Vector2 R) : Vector2Subtract v v = Vector2Zero.
Proof. vec_eq. Qed.

(** X12.  The pull of b on a is the opposite of the pull of a on b: the
    two forces computed by calculateGravitationalForce cancel, for every
    pair of balls, and a ball exerts no force on a ball at the same
    spot. *)
Theorem gravity_is_mutual (a b : Ball R) :
  Vector2Add (calculateGravitationalForce a b) (calculateGravitationalForce b a)
    = Vector2Zero /\
  (position a = position b -> calculateGravitationalForce a b = Vector2Zero).
Proof.
  assert (Hsame : position a = position b ->
                  calculateGravitationalForce a b = Vector2Zero).
  { intros Hp. unfold calculateGravitationalForce. rewrite Hp.
    rewrite Vector2Subtract_self, Vector2Normalize_R_zero. vec_eq. }
  split; [|exact Hsame].
  destruct (Vector2_zero_dec (Vector2Subtract (position b) (position a)))
    as [Hz|Hnz].
  - assert (Hp : position a = position b).
    { destruct (position a) as [ax ay], (position b) as [bx by'].
      unfold Vector2Subtract, Vector2Zero in Hz. cbn [x y] in Hz. at_R.
      injection Hz as Hx Hy. f_equal; lra. }
    rewrite (Hsame Hp).
    unfold calculateGravitationalForce. rewrite Hp.
    rewrite Vector2Subtract_self, Vector2Normalize_R_zero. vec_eq.
  - assert (Hnz' : Vector2Subtract (position a) (position b) <> Vector2Zero).
    { apply Vector2Subtract_nonzero. intros Hp. apply Hnz.
      rewrite Hp. apply Vector2Subtract_self. }
    unfold calculateGravitationalForce.
    rewrite (Vector2Normalize_R _ Hnz), (Vector2Normalize_R _ Hnz').
    rewrite (Vector2Length_flip (position a) (position b)).
    pose proof (Vector2Length_pos _ Hnz) as Hlen.
    set (len := Vector2Length _) in *. clearbody len.
    unfold minDistanceThreshold, G.
    destruct (position a) as [ax ay], (position b) as [bx by'].
    unfold_vec. at_R. f_equal; field; lra.
Qed.

(** X13.  Between two balls at distinct spots, with masses that are not
    negative, the force has magnitude G * m1 * m2 / (distance + 10)^2 and
    points from the source to the target: gravity attracts. *)
Theorem gravity_attracts (source target : Ball R) :
  (0 <= mass source)%R -> (0 <= mass target)%R ->
  position source <> position target ->
  let separation := Vector2Subtract (position target) (position source) in
  let force := calculateGravitationalForce source target in
  Vector2Length force =
    (1000 * mass source * mass target
     / ((Vector2Length separation + 10) * (Vector2Length separation + 10)))%R /\
  (0 <= Vector2DotProduct force separation)%R.
Proof.
  intros Hm1 Hm2 Hne separation force.
  pose proof (Vector2Subtract_nonzero _ _ Hne) as Hnz. fold separation in Hnz.
  pose proof (Vector2Length_pos _ Hnz) as Hlen.
  pose proof (Vector2Length_sqr separation) as Hsq.
  pose proof (Vector2Normalize_unit _ Hnz) as Hunit.
  assert (Hmag : (0 <= 1000 * mass source * mass target
     / ((Vector2Length separation + 10) * (Vector2Length separation + 10)))%R).
  { apply Rmult_le_pos; [nra|]. apply Rlt_le, Rinv_0_lt_compat. nra. }
  unfold force, calculateGravitationalForce. fold separation.
  unfold minDistanceThreshold, G. at_R.
  set (magnitude := (1000 * mass source * mass target / _)%R) in *.
  clearbody magnitude.
  rewrite (Vector2Normalize_R _ Hnz) in *.
  set (len := Vector2Length separation) in *. clearbody len.
  destruct separation as [dx dy].
  unfold Vector2DotProduct, Vector2Scale, Vector2Length in *.
  cbn [x y] in *. at_R. split.
  - apply sqrt_unique; [done|].
    transitivity (magnitude * magnitude
                  * (dx * (1 / len) * (dx * (1 / len))
                     + dy * (1 / len) * (dy * (1 / len))))%R;
      [rewrite Hunit|]; ring.
  - replace (dx * (1 / len) * magnitude * dx + dy * (1 / len) * magnitude * dy)%R
      with (magnitude * ((dx * dx + dy * dy) / len))%R by (field; lra).
    apply Rmult_le_pos; [done|]. rewrite <- Hsq. 
    replace (len * len / len)%R with len by (field; lra). lra.
Qed.

Lemma gravity_attracts_witness :
  (0 <= Vector2DotProduct
          (calculateGravitationalForce (restingBall (F:=R) 0 0 5 5)
                                       (restingBall 6 0 5 5))
          (Vector2Subtract (position (restingBall (F:=R) 6 0 5 5))
                           (position (restingBall (F:=R) 0 0 5 5))))%R.
Proof.
  apply (gravity_attracts (restingBall 0 0 5 5) (restingBall 6 0 5 5)).
  - cbn [restingBall mass of_int R_Scalar]. lra.
  - cbn [restingBall mass of_int R_Scalar]. lra.
  - cbn [restingBall position of_int R_Scalar]. intros [= Hx]. lra.
Defined.

(** X14.  The positional correction moves the two balls by shares that
    are in inverse proportion to their masses, so it leaves the centre of
    mass of the pair where it was: m1 * p1 + m2 * p2 is the same before and
    after a call of resolveBallCollision, whenever m1 + m2 is not zero. *)
Theorem resolveBallCollision_keeps_centre_of_mass (ball1 ball2 : Ball R) :
  (mass ball1 + mass ball2 <> 0)%R ->
  massMoment (resolveBallCollision ball1 ball2).1
             (resolveBallCollision ball1 ball2).2
  = massMoment ball1 ball2.
Proof.
  intros Hm.
  destruct (resolveBallCollision_position ball1 ball2) as (Hp1 & Hp2 & Hm1 & Hm2 & _).
  unfold massMoment. rewrite Hp1, Hp2, Hm1, Hm2.
  unfold correctPositions.
  destruct (ltb _ _); cbn [fst snd position set_position]; [|done].
  generalize (Vector2Normalize (Vector2Subtract (position ball2) (position ball1))).
  generalize (radius ball1 + radius ball2
              - Vector2Length (Vector2Subtract (position ball2) (position ball1)))%S.
  intros overlap [nx ny].
  destruct (position ball1) as [p1x p1y], (position ball2) as [p2x p2y].
  unfold_vec. at_R. f_equal; field; done.
Qed.

Lemma resolveBallCollision_keeps_centre_of_mass_witness :
  massMoment
    (resolveBallCollision (restingBall (F:=R) 0 0 5 5) (restingBall 6 0 5 5)).1
    (resolveBallCollision (restingBall (F:=R) 0 0 5 5) (restingBall 6 0 5 5)).2
  = massMoment (restingBall (F:=R) 0 0 5 5) (restingBall 6 0 5 5).
Proof.
  apply (resolveBallCollision_keeps_centre_of_mass
           (restingBall 0 0 5 5) (restingBall 6 0 5 5)).
  cbn [restingBall mass of_int R_Scalar]. lra.
Defined.

(** X15.  The impulse is that of an elastic collision: over the reals,
    for masses whose sum is not zero, one call of resolveBallCollision
    leaves the kinetic energy of the pair unchanged. *)
Theorem resolveBallCollision_is_elastic (ball1 ball2 : Ball R) :
  (mass ball1 + mass ball2 <> 0)%R ->
  (kineticEnergy (resolveBallCollision ball1 ball2).1
   + kineticEnergy (resolveBallCollision ball1 ball2).2
   = kineticEnergy ball1 + kineticEnergy ball2)%R.
Proof.
  intros Hm.
  destruct (resolveBallCollision_position ball1 ball2) as (_ & _ & Hm1 & Hm2 & _).
  pose proof (resolveBallCollision_velocity ball1 ball2) as Hv.
  pose proof (approaching_unit_normal ball1 ball2) as Hunit.
  cbv zeta in Hv. unfold kineticEnergy. rewrite Hm1, Hm2.
  destruct (ltb _ _) eqn:Hlt; injection Hv as -> ->; [|done].
  apply ltb_R_true in Hlt. specialize (Hunit Hlt). clear Hlt.
  revert Hunit. generalize (collisionNormal ball1 ball2). intros [nx ny] Hunit.
  destruct (velocity ball1) as [v1x v1y], (velocity ball2) as [v2x v2y].
  unfold_vec. at_R.
  set (m1 := mass ball1) in *. set (m2 := mass ball2) in *. clearbody m1 m2.
  set (relativeSpeed := ((v2x - v1x) * nx + (v2y - v1y) * ny)%R).
  set (impulse := (2 * relativeSpeed / (m1 + m2))%R).
  assert (Himp : (impulse * (m1 + m2) = 2 * relativeSpeed)%R)
    by (unfold impulse; field; done).
  clearbody impulse.
  apply (Rmult_eq_reg_l 2); [|lra].
  transitivity (m1 * (v1x * v1x + v1y * v1y) + m2 * (v2x * v2x + v2y * v2y)
                + impulse * m1 * m2
                  * (impulse * (m1 + m2) * (nx * nx + ny * ny)
                     - 2 * relativeSpeed))%R;
    [unfold relativeSpeed; field | rewrite Hunit, Himp; field].
Qed.

Lemma resolveBallCollision_is_elastic_witness :
  (kineticEnergy
     (resolveBallCollision (movingBall (F:=R) 0 0 1 0 5 5)
                           (movingBall 6 0 (-1) 0 5 5)).1
   + kineticEnergy
       (resolveBallCollision (movingBall (F:=R) 0 0 1 0 5 5)
                             (movingBall 6 0 (-1) 0 5 5)).2
   = kineticEnergy (movingBall (F:=R) 0 0 1 0 5 5)
     + kineticEnergy (movingBall (F:=R) 6 0 (-1) 0 5 5))%R.
Proof.
  apply (resolveBallCollision_is_elastic
           (movingBall 0 0 1 0 5 5) (movingBall 6 0 (-1) 0 5 5)).
  cbn [movingBall mass of_int R_Scalar]. lra.
Defined.


Lemma wrapCoord_range (limit : Z) (rad p : R) :
  (0 <= IZR limit)%R -> (0 < rad)%R ->
  (- rad <= wrapCoord limit rad p <= IZR limit + rad)%R.
Proof.
  intros Hl Hr.
  destruct (wrapCoord_R limit rad p Hl Hr) as (Hhigh & Hlow & Hmid & _).
  destruct (Rlt_dec (IZR limit + rad) p) as [H1|H1]; [rewrite Hhigh; lra|].
  destruct (Rlt_dec p (- rad)) as [H2|H2]; [rewrite Hlow; lra|].
  rewrite Hmid; lra.
Qed.

(** X17.  After the bounds tests a ball of positive radius lies in the
    band that reaches one radius beyond the viewport on every side, and
    the update loop leaves every ball of positive radius in that band,
    dragging or not. *)
Theorem wrapBounds_confines (ball : Ball R) :
  (0 < radius ball)%R ->
  (- radius ball <= x (position (wrapBounds ball)) <= IZR screenWidth + radius ball)%R /\
  (- radius ball <= y (position (wrapBounds ball)) <= IZR screenHeight + radius ball)%R /\
  (forall flag dt balls i,
      balls !! i = Some ball ->
      exists ball',
        updateBalls flag dt balls !! i = Some ball' /\
        (- radius ball <= x (position ball') <= IZR screenWidth + radius ball)%R /\
        (- radius ball <= y (position ball') <= IZR screenHeight + radius ball)%R).
Proof.
  intros Hr.
  assert (Hw : (0 <= IZR screenWidth)%R) by (unfold screenWidth; lra).
  assert (Hh : (0 <= IZR screenHeight)%R) by (unfold screenHeight; lra).
  assert (Hband : forall ball0 : Ball R, radius ball0 = radius ball ->
    (- radius ball <= x (position (wrapBounds ball0)) <= IZR screenWidth + radius ball)%R /\
    (- radius ball <= y (position (wrapBounds ball0)) <= IZR screenHeight + radius ball)%R).
  { intros ball0 Hr0. rewrite wrapBounds_position. cbn [x y]. rewrite Hr0.
    split; by apply wrapCoord_range. }
  split; [by apply Hband|]. split; [by apply Hband|].
  intros flag dt balls i Hi. eexists. split; [by apply updateBalls_lookup|].
  apply Hband. by destruct flag.
Qed.

Lemma wrapBounds_confines_witness :
  (- 5 <= x (position (wrapBounds (restingBall (F:=R) 1606 100 5 5))) <= 1605)%R.
Proof.
  destruct (wrapBounds_confines (restingBall (F:=R) 1606 100 5 5)) as (Hx & _).
  - cbn [restingBall radius of_int R_Scalar]. lra.
  - cbn [restingBall radius of_int R_Scalar] in Hx. unfold screenWidth in Hx. lra.
Defined.

(** X18.  resolveBallCollision does nothing to two balls that neither
    overlap nor approach: both tests fail and the pair is returned as it
    came, in any arithmetic. *)
Theorem resolveBallCollision_leaves_parting_balls
    {F : Type} `{Scalar F} (ball1 ball2 : Ball F) :
  ltb (Vector2Distance (position ball1) (position ball2))
      (add (radius ball1) (radius ball2)) = false ->
  ltb (collisionRelativeSpeed ball1 ball2) (of_int 0) = false ->
  resolveBallCollision ball1 ball2 = (ball1, ball2).
Proof.
  intros Hapart Hparting. rewrite resolveBallCollision_split.
  unfold correctPositions. rewrite Hapart. cbn [fst snd].
  unfold applyImpulse. by rewrite Hparting.
Qed.

Lemma resolveBallCollision_leaves_parting_balls_witness :
  resolveBallCollision (restingBall (F:=binary32) 100 100 5 5)
                       (restingBall 130 100 5 5)
  = (restingBall 100 100 5 5, restingBall 130 100 5 5).
Proof.
  apply (resolveBallCollision_leaves_parting_balls
           (restingBall (F:=binary32) 100 100 5 5) (restingBall 130 100 5 5));
    vm_compute; reflexivity.
Defined.

(** ** Creation of the balls *)

Lemma createBalls_loop {F} `{Scalar F} (rand : nat -> Z) (n : nat) :
  for_loop 0 n (fun i '(balls, k) => (balls ++ [newBall rand k], k + 7)) ([], 0)
  = (map (fun i => newBall rand (7 * i)) (seq 0 n), 7 * n).
Proof.
  induction n as [|n IH]; [done|].
  replace (Datatypes.S n) with (n + 1) by lia.
  rewrite for_loop_last by lia. rewrite IH.
  rewrite seq_app, map_app. cbn [seq map]. f_equal. lia.
Qed.

Lemma createBalls_map {F} `{Scalar F} (rand : nat -> Z) :
  createBalls rand = map (fun i => newBall rand (7 * i)) (seq 0 ballCount).
Proof. unfold createBalls. by rewrite createBalls_loop. Qed.

Lemma rem_range (a m : Z) : (0 <= a)%Z -> (0 < m)%Z ->
  (0 <= IZR (Z.rem a m) <= IZR m - 1)%R.
Proof.
  intros Ha Hm. pose proof (Z.rem_bound_pos a m Ha Hm) as Hb.
  rewrite <- (minus_IZR m 1). split; apply IZR_le; lia.
Qed.

(** X19.  What the creation loop makes, for any rand() that returns no
    negative value, read over the reals: 800 balls, each of radius 5, of
    mass 5 * (random / 16 + 1), which lies between 5 and 80, at rest
    acceleration, with a position inside the viewport and each velocity
    component between -100 and 99; such a ball is where the bounds tests
    leave it. *)
Theorem created_balls_are_well_formed (rand : nat -> Z) :
  (forall k, (0 <= rand k)%Z) ->
  length (createBalls (F:=R) rand) = 800 /\
  Forall (fun ball : Ball R =>
            radius ball = 5%R /\
            (5 <= mass ball <= 80)%R /\
            acceleration ball = Vector2Zero /\
            (0 <= x (position ball) <= 1599)%R /\
            (0 <= y (position ball) <= 899)%R /\
            (- 100 <= x (velocity ball) <= 99)%R /\
            (- 100 <= y (velocity ball) <= 99)%R /\
            position (wrapBounds ball) = position ball)
         (createBalls rand).
Proof.
  intros Hrand. rewrite createBalls_map. split.
  { by rewrite length_map, length_seq. }
  apply Forall_forall. intros ball Hin.
  apply list_elem_of_In, in_map_iff in Hin as (i & <- & _).
  set (k := 7 * i). clearbody k.
  unfold newBall. cbn [radius mass acceleration position velocity x y].
  cbn [of_int mul R_Scalar].
  pose proof (rem_range (rand k) 256 (Hrand _) eq_refl) as Hrandom.
  pose proof (rem_range (rand (k + 1)) screenWidth (Hrand _) eq_refl) as Hpx.
  pose proof (rem_range (rand (k + 2)) screenHeight (Hrand _) eq_refl) as Hpy.
  pose proof (rem_range (rand (k + 3)) 200 (Hrand _) eq_refl) as Hvx.
  pose proof (rem_range (rand (k + 4)) 200 (Hrand _) eq_refl) as Hvy.
  assert (Hq : (1 <= IZR (Z.quot (Z.rem (rand k) 256) 16 + 1) <= 16)%R).
  { pose proof (Z.rem_bound_pos (rand k) 256 (Hrand _) eq_refl) as Hb.
    assert (0 <= Z.quot (Z.rem (rand k) 256) 16 <= 15)%Z.
    { rewrite Z.quot_div_nonneg by lia. split.
      - apply Z.div_pos; lia.
      - apply Z.lt_succ_r, Z.div_lt_upper_bound; lia. }
    split; apply IZR_le; lia. }
  unfold screenWidth, screenHeight in *. rewrite !minus_IZR.
  split; [done|]. split; [lra|]. split; [done|].
  split; [lra|]. split; [lra|]. split; [lra|]. split; [lra|].
  rewrite wrapBounds_position. cbn [position radius x y].
  f_equal; apply wrapCoord_R; unfold screenWidth, screenHeight; lra.
Qed.

Lemma created_balls_are_well_formed_witness :
  length (createBalls (F:=R) countingRand) = 800.
Proof.
  apply (created_balls_are_well_formed countingRand).
  intros k. unfold countingRand. lia.
Defined.

(** X20.  In single precision the creation loop computes the mass without
    rounding: for a rand() that is not negative, the mass of a new ball is
    exactly the float of the integer 5 * (random / 16 + 1), a finite
    number greater than zero, and its radius is exactly 5. *)
Theorem created_mass_is_exact (rand : nat -> Z) (k : nat) :
  (0 <= rand k)%Z ->
  let ball := newBall (F:=binary32) rand k in
  mass ball = b32_of_int (5 * (Z.quot (Z.rem (rand k) 256) 16 + 1)) /\
  is_finite (mass ball) = true /\
  SFltb (b32_of_int 0) (mass ball) = true /\
  radius ball = b32_of_int 5.
Proof.
  intros Hrand ball. unfold ball, newBall. cbn [mass radius].
  pose proof (Z.rem_bound_pos (rand k) 256 Hrand eq_refl) as Hb.
  assert (Hq : exists n, n < 16 /\ Z.quot (Z.rem (rand k) 256) 16 = Z.of_nat n).
  { exists (Z.to_nat (Z.quot (Z.rem (rand k) 256) 16)).
    rewrite Z.quot_div_nonneg by lia.
    assert (0 <= Z.rem (rand k) 256 / 16 < 16)%Z.
    { split; [apply Z.div_pos; lia|apply Z.div_lt_upper_bound; lia]. }
    lia. }
  destruct Hq as (n & Hn & ->).
  do 16 (destruct n as [|n]; [vm_compute; done|]). lia.
Qed.

Lemma created_mass_is_exact_witness :
  mass (newBall (F:=binary32) countingRand 40) = b32_of_int 15.
Proof.
  destruct (created_mass_is_exact countingRand 40) as (Hm & _).
  - unfold countingRand. lia.
  - rewrite Hm. reflexivity.
Defined.

Section DragLoop.
Context {F : Type} `{Scalar F}.

(* In a drag the body for index i replaces ball i by its wrapped self. *)
Lemma updateBall_dragging_own (dt : F) (i : nat) (view : list (Ball F)) :
  updateBall true dt i view !! i = wrapBounds <$> view !! i.
Proof.
  unfold updateBall. destruct (view !! i) as [ball|] eqn:Hi; [|by rewrite Hi].
  cbn [negb]. rewrite list_lookup_insert_eq by (by eapply lookup_lt_Some). done.
Qed.

Lemma drag_fold_lookup (dt : F) (order : list nat) (balls : list (Ball F)) (k : nat) :
  NoDup order ->
  fold_left (fun view i => updateBall true dt i view) order balls !! k
  = if decide (k ∈ order) then wrapBounds <$> balls !! k else balls !! k.
Proof.
  intros Hnd. revert balls. induction Hnd as [|i rest Hi Hnd IH]; intros balls.
  { cbn [fold_left]. destruct (decide (k ∈ [])) as [Hin|_]; [|done].
    by apply list_elem_of_In in Hin. }
  cbn [fold_left]. rewrite IH.
  destruct (decide (k = i)) as [->|Hne].
  - destruct (decide (i ∈ rest)) as [Hin|_]; [done|].
    destruct (decide (i ∈ i :: rest)) as [_|Hout];
      [|destruct Hout; apply list_elem_of_In; by left].
    apply updateBall_dragging_own.
  - rewrite updateBall_other by done.
    destruct (decide (k ∈ rest)) as [Hin|Hout];
      destruct (decide (k ∈ i :: rest)) as [Hin'|Hout']; try done.
    + destruct Hout'. apply list_elem_of_In. right. by apply list_elem_of_In.
    + apply list_elem_of_In in Hin' as [Heq|Hin']; [by destruct Hne|].
      destruct Hout. by apply list_elem_of_In.
Qed.
End DragLoop.

(** X21.  The iterations of the update loop write disjoint balls: the body
    for index i leaves every other ball and the length of the vector as
    they are.  In a frame with a drag in progress they do not read each
    other either: run in any order, each index once, the bodies turn the
    vector into the same one, each ball replaced by its wrapped self, which
    is also what the loop in index order gives. *)
Theorem drag_loop_is_order_independent
    {F : Type} `{Scalar F} (dt : F) (balls : list (Ball F)) (order : list nat) :
  order ≡ₚ seq 0 (length balls) ->
  fold_left (fun view i => updateBall true dt i view) order balls
    = map wrapBounds balls /\
  updateBalls true dt balls = map wrapBounds balls /\
  (forall flag i k (view : list (Ball F)),
      k <> i ->
      updateBall flag dt i view !! k = view !! k /\
      length (updateBall flag dt i view) = length view).
Proof.
  intros Hperm. split; [|split].
  - assert (Hnd : NoDup order) by (rewrite Hperm; apply NoDup_seq).
    apply list_eq. intros k. rewrite drag_fold_lookup by done.
    rewrite list_lookup_fmap.
    destruct (decide (k ∈ order)) as [Hin|Hout]; [done|].
    rewrite Hperm, elem_of_seq in Hout.
    rewrite (lookup_ge_None_2 balls k) by lia. done.
  - apply updateBalls_dragging.
  - intros flag i k view Hne.
    split; [by apply updateBall_other|apply updateBall_length].
Qed.

Lemma drag_loop_is_order_independent_witness :
  fold_left (fun view i => updateBall true (of_int 1) i view) [1; 0]
            (twoBalls (F:=binary32))
  = map wrapBounds twoBalls.
Proof.
  assert (Hperm : [1; 0] ≡ₚ seq 0 (length (twoBalls (F:=binary32))))
    by (change ([1; 0] ≡ₚ [0; 1]); apply perm_swap).
  destruct (drag_loop_is_order_independent (of_int 1) (twoBalls (F:=binary32))
              [1; 0] Hperm) as (Hany & _).
  exact Hany.
Defined.

(** X22.  A ball alone in the world feels no force: over the reals its
    step leaves the velocity as it was, sets the acceleration to zero and
    moves the ball by velocity * deltaTime. *)
Theorem lone_ball_moves_uniformly (dt : R) (ball : Ball R) :
  integrate dt [ball] 0 ball =
    mkBall (Vector2Add (position ball) (Vector2Scale (velocity ball) dt))
           (velocity ball) Vector2Zero (radius ball) (mass ball) (color ball).
Proof.
  destruct ball as [[px py] [vx vy] acc rad m col].
  unfold integrate. cbn [accumulate Nat.eqb].
  unfold set_position, set_velocity, set_acceleration.
  cbn [position velocity acceleration radius mass color].
  unfold_vec. at_R. f_equal; f_equal; ring.
Qed.

(** X23.  During a drag the dragged ball follows the pointer: when the
    pointer is inside the viewport and the ball has a positive radius,
    the ball leaves the update loop of the frame exactly at the pointer,
    with the velocity and acceleration it had. *)
Theorem dragged_ball_follows_pointer
    (inp : Input R) (st : Sim R) (ball : Ball R) :
  st_isDragging st = true ->
  ball_at (st_balls st) (st_draggedBallIndex st) = Some ball ->
  (0 < radius ball)%R ->
  (0 <= GetMouseX inp <= screenWidth)%Z ->
  (0 <= GetMouseY inp <= screenHeight)%Z ->
  let st' := handleDrag inp st in
  ball_at (updateBalls (st_isDragging st') (GetFrameTime inp) (st_balls st'))
          (st_draggedBallIndex st')
  = Some (mkBall (mkVector2 (IZR (GetMouseX inp)) (IZR (GetMouseY inp)))
                 (velocity ball) (acceleration ball)
                 (radius ball) (mass ball) (color ball)).
Proof.
  intros Hdrag Hball Hr Hmx Hmy st'.
  assert (Hst' : st' =
    mkSim (store_at (st_balls st) (st_draggedBallIndex st)
             (set_position ball
                (mkVector2 (of_int (GetMouseX inp)) (of_int (GetMouseY inp)))))
          true (st_draggedBallIndex st)).
  { unfold st', handleDrag. by rewrite Hdrag, Hball. }
  rewrite Hst'. cbn [st_isDragging st_balls st_draggedBallIndex].
  pose proof (ball_at_store_at _ _ _
    (set_position ball
       (mkVector2 (of_int (GetMouseX inp)) (of_int (GetMouseY inp)))) Hball) as Hpinned.
  revert Hpinned. generalize (store_at (st_balls st) (st_draggedBallIndex st)
    (set_position ball
       (mkVector2 (of_int (GetMouseX inp)) (of_int (GetMouseY inp))))).
  intros balls Hpinned. unfold ball_at in *.
  destruct (st_draggedBallIndex st <? 0)%Z; [done|].
  rewrite (updateBalls_lookup _ _ _ _ _ Hpinned). cbn [negb]. f_equal.
  destruct (wrapBounds_keeps
              (set_position ball
                 (mkVector2 (of_int (GetMouseX inp)) (of_int (GetMouseY inp)))))
    as (Hv & Ha & Hrad & Hm & Hc).
  pose proof (wrapBounds_position
                (set_position ball
                   (mkVector2 (of_int (GetMouseX inp)) (of_int (GetMouseY inp)))))
    as Hp.
  cbn [set_position position velocity acceleration radius mass color x y] in *.
  destruct (wrapBounds _) as [p' v' a' r' m' c'].
  cbn [position velocity acceleration radius mass color] in *. subst.
  f_equal. at_R.
  assert (Hw : (0 <= IZR screenWidth)%R) by (unfold screenWidth; lra).
  assert (Hh : (0 <= IZR screenHeight)%R) by (unfold screenHeight; lra).
  f_equal; apply wrapCoord_R; try done; split.
  - apply Rle_trans with 0%R; [lra|apply IZR_le; lia].
  - apply Rle_trans with (IZR screenWidth); [apply IZR_le; lia|lra].
  - apply Rle_trans with 0%R; [lra|apply IZR_le; lia].
  - apply Rle_trans with (IZR screenHeight); [apply IZR_le; lia|lra].
Qed.

Lemma dragged_ball_follows_pointer_witness :
  ball_at (updateBalls true 1%R
             (st_balls (handleDrag quietInput (mkSim (twoBalls (F:=R)) true 1))))
          1
  = Some (restingBall 100 100 5 5).
Proof.
  pose proof (dragged_ball_follows_pointer quietInput
                (mkSim (twoBalls (F:=R)) true 1) (restingBall 130 100 5 5)) as Hfollow.
  cbv zeta in Hfollow. apply Hfollow.
  - reflexivity.
  - reflexivity.
  - cbn [restingBall radius of_int R_Scalar]. lra.
  - cbn [quietInput GetMouseX]. unfold screenWidth. lia.
  - cbn [quietInput GetMouseY]. unfold screenHeight. lia.
Defined.
